(** * x86-gapbs.py: the gem5 configuration script that runs the GAP
    Benchmark Suite on a two-core X86 board

  The script is one flat sequence of top-level statements.  It is embedded
  here as one monadic program, [script], over a small reader/writer/error
  monad: the reader is the [World] the script runs in (the gem5 build and
  what the simulated guest does), the writer is the trace of the effects
  the statements perform, in program order, and the error is the Python
  exception that ends the run early.

  Python's [argparse] and the gem5 standard library are not part of the
  repository; the parts of them the script calls are modelled in the
  modules [argparse], [argv] and [gem5] below, as far as the script's
  keyword arguments select their behaviour.

  The command line comes in two forms.  [main] is the script run on the
  strings of [sys.argv[1:]], parsed by [argv.parse_args] as CPython 3.11's
  argparse parses them (help, abbreviated options, [--opt=value], values
  that look like options).  [script] is the script run on a list of
  (option, value) occurrences, parsed by [argparse.parse_args]; the two
  agree on the command lines that give the three options in full, each
  followed by a value that does not start with a dash ([main_plain]). *)

From Stdlib Require Import Ascii.
From stdpp Require Import gmap strings list pretty.

Open Scope Z_scope.

(** ** Python strings *)

Module Py.

(** [str(i)] on an integer: its decimal numeral. *)
Definition str (i : Z) : string := pretty i.

(** What an f-string replacement field [{x}] prints for a value that is a
    string or [None]. *)
Definition format (x : option string) : string :=
  match x with
  | Some s => s
  | None => "None"
  end.

(** [s.startswith(p)] *)
Definition startswith (s p : string) : bool := String.prefix p s.

(** [s.endswith(suf)]: [s] is [suf], or what follows its first character
    ends with [suf]. *)
Fixpoint endswith (s suf : string) : bool :=
  String.eqb s suf ||
  match s with
  | EmptyString => false
  | String _ s' => endswith s' suf
  end.

(** [sub in s]: [sub] starts [s], or occurs in what follows its first
    character. *)
Fixpoint contains (s sub : string) : bool :=
  startswith s sub ||
  match s with
  | EmptyString => false
  | String _ s' => contains s' sub
  end.

End Py.

(** ** argparse, on occurrences

  Here an invocation is the sequence of option occurrences on the command
  line, in order: the pair [(o, v)] stands for the two strings [o v].
  This is the parser for the command lines written as the usage of the
  script shows them, the options in full and the values not starting
  with a dash; on the other command lines it is [argv.parse_args], below,
  that tells what argparse does. *)

Module argparse.

(** One [add_argument] call with [type=str] (the identity on the strings
    of the command line).  [choices = None] is the keyword left out. *)
Record Argument := {
  option_string : string;
  dest : string;
  required : bool;
  choices : option (list string);
}.

(** What [parser.error] is called with. *)
Inductive ArgumentError :=
| invalid_choice (opt value : string) (allowed : list string)
| required_missing (opts : list string)
| unrecognized_arguments (extras : list (string * string))
| expected_one_argument (opt : string)
| ambiguous_option (arg : string) (matches : list string)
| ignored_explicit_argument (arg : string)
| unrecognized (extras : list string).

(** [parser.error] prints the usage message and calls [sys.exit(2)]. *)
Definition error_status : Z := 2.

Record ParseState := {
  namespace : gmap string string;   (* an absent attribute is None *)
  seen_actions : list string;       (* option strings met so far *)
  extras : list (string * string);
}.

Definition initial : ParseState :=
  {| namespace := ∅; seen_actions := []; extras := [] |}.

(** The argument that has [o] for its option string, written in full. *)
Definition find_action (p : list Argument) (o : string) : option Argument :=
  List.find (fun a => String.eqb (option_string a) o) p.

(** [_check_value]: with [choices] given, the value must be one of them. *)
Definition check_value (a : Argument) (v : string) : bool :=
  match choices a with
  | None => true
  | Some cs => bool_decide (v ∈ cs)
  end.

(** One occurrence: an unknown option goes to the extras; a known one has
    its value checked and stored under its [dest]. *)
Definition consume_optional (p : list Argument) (st : ParseState)
    (ov : string * string) : ArgumentError + ParseState :=
  match find_action p ov.1 with
  | None =>
      inr {| namespace := namespace st;
             seen_actions := seen_actions st;
             extras := extras st ++ [ov] |}
  | Some a =>
      if check_value a ov.2 then
        inr {| namespace := <[dest a := ov.2]> (namespace st);
               seen_actions := seen_actions st ++ [option_string a];
               extras := extras st |}
      else
        inl (invalid_choice (option_string a) ov.2
               (default [] (choices a)))
  end.

Fixpoint consume_all (p : list Argument) (st : ParseState)
    (argv : list (string * string)) : ArgumentError + ParseState :=
  match argv with
  | [] => inr st
  | ov :: rest =>
      match consume_optional p st ov with
      | inl e => inl e
      | inr st' => consume_all p st' rest
      end
  end.

(** The required arguments that were never met. *)
Definition missing (p : list Argument) (seen : list string) : list string :=
  option_string <$>
    List.filter (fun a => required a && negb (bool_decide (option_string a ∈ seen))) p.

(** [parse_args]: the occurrences left to right, then the required
    arguments, then the leftovers. *)
Definition parse_args (p : list Argument) (argv : list (string * string))
    : ArgumentError + gmap string string :=
  match consume_all p initial argv with
  | inl e => inl e
  | inr st =>
      match missing p (seen_actions st) with
      | (_ :: _) as ms => inl (required_missing ms)
      | [] =>
          match extras st with
          | (_ :: _) as xs => inl (unrecognized_arguments xs)
          | [] => inr (namespace st)
          end
      end
  end.

End argparse.

(** ** argparse, on the strings of the command line

  [parser.parse_args()] on [sys.argv[1:]], after [_parse_known_args] of
  CPython 3.11, for a parser whose arguments are [store] options with one
  value each, as the script's are. *)

Module argv.
Import argparse.

(** The two kinds of action of the parser: the help that [ArgumentParser]
    adds on its own ([add_help]), and the [store] of an [add_argument]. *)
Inductive Action := help_action | store_action (a : Argument).

(** [parser._option_string_actions], in the order of registration. *)
Definition option_string_actions (p : list Argument) : list (string * Action) :=
  [("-h", help_action); ("--help", help_action)]
  ++ ((fun a => (option_string a, store_action a)) <$> p).

Definition get_action (p : list Argument) (s : string) : option Action :=
  snd <$> List.find (fun kv => String.eqb kv.1 s) (option_string_actions p).

(** [s.split('=', 1)] for an [s] with an [=] in it. *)
Fixpoint split_eq (s : string) : option (string * string) :=
  match s with
  | EmptyString => None
  | String c s' =>
      if Ascii.eqb c "="%char then Some (EmptyString, s')
      else match split_eq s' with
           | Some (a, b) => Some (String c a, b)
           | None => None
           end
  end.

Fixpoint split_dot (s : string) : option (string * string) :=
  match s with
  | EmptyString => None
  | String c s' =>
      if Ascii.eqb c "."%char then Some (EmptyString, s')
      else match split_dot s' with
           | Some (a, b) => Some (String c a, b)
           | None => None
           end
  end.

Fixpoint has_space (s : string) : bool :=
  match s with
  | EmptyString => false
  | String c s' => Ascii.eqb c " "%char || has_space s'
  end.

Definition is_digit (c : Ascii.ascii) : bool :=
  let n := Ascii.N_of_ascii c in ((48 <=? n) && (n <=? 57))%N.

Fixpoint digits (s : string) : bool :=
  match s with
  | EmptyString => true
  | String c s' => is_digit c && digits s'
  end.

Definition digits1 (s : string) : bool :=
  match s with
  | EmptyString => false
  | _ => digits s
  end.

(** [$] also matches before a newline that ends the string. *)
Fixpoint strip_newline (s : string) : string :=
  match s with
  | EmptyString => EmptyString
  | String c EmptyString => if Ascii.eqb c (Ascii.ascii_of_nat 10) then EmptyString else s
  | String c s' => String c (strip_newline s')
  end.

(** [_negative_number_matcher]: [^-\d+$|^-\d*\.\d+$]. *)
Definition negative_number (s : string) : bool :=
  match strip_newline s with
  | String c r =>
      Ascii.eqb c "-"%char &&
      (digits1 r ||
       match split_dot r with
       | Some (d1, d2) => digits d1 && digits1 d2
       | None => false
       end)
  | EmptyString => false
  end.

(** The action (if any), the option string and the explicit argument. *)
Definition OptionTuple : Type := option Action * string * option string.

(** [_get_option_tuples]: the options a string abbreviates.  A string that
    starts with two dashes is split at its [=] and matches the options it
    is a prefix of; one with a single dash matches the option that is its
    first two characters, the rest being the explicit argument. *)
Definition get_option_tuples (p : list Argument) (tok : string) : list OptionTuple :=
  match tok with
  | String _ (String c1 rest) =>
      if Ascii.eqb c1 "-"%char then
        let '(option_prefix, explicit_arg) :=
          match split_eq tok with
          | Some (a, b) => (a, Some b)
          | None => (tok, None)
          end in
        omap (fun kv : string * Action =>
                if String.prefix option_prefix kv.1
                then Some (Some kv.2, kv.1, explicit_arg) else None)
             (option_string_actions p)
      else
        let short_option_prefix := String "-"%char (String c1 EmptyString) in
        omap (fun kv : string * Action =>
                if String.eqb kv.1 short_option_prefix
                then Some (Some kv.2, kv.1, Some rest)
                else if String.prefix tok kv.1
                then Some (Some kv.2, kv.1, None) else None)
             (option_string_actions p)
  | _ => []
  end.

(** [_parse_optional]: [None] for a string that is an argument, the option
    tuple for one that is an option. *)
Definition parse_optional (p : list Argument) (tok : string)
    : ArgumentError + option OptionTuple :=
  match tok with
  | EmptyString => inr None
  | String c0 rest =>
      if negb (Ascii.eqb c0 "-"%char) then inr None
      else match get_action p tok with
      | Some act => inr (Some (Some act, tok, None))
      | None =>
          match rest with
          | EmptyString => inr None
          | _ =>
              let by_eq :=
                match split_eq tok with
                | Some (o, e) =>
                    match get_action p o with
                    | Some act => Some (Some act, o, Some e)
                    | None => None
                    end
                | None => None
                end in
              match by_eq with
              | Some t => inr (Some t)
              | None =>
                  match get_option_tuples p tok with
                  | (_ :: _ :: _) as ts => inl (ambiguous_option tok ((fun t : OptionTuple => t.1.2) <$> ts))
                  | [t] => inr (Some t)
                  | [] =>
                      if negative_number tok then inr None
                      else if has_space tok then inr None
                      else inr (Some (None, tok, None))
                  end
              end
          end
      end
  end.

(** The pattern of the command line: [A] for an argument, [-] for [--],
    [O] for an option. *)
Inductive Class := A | dashdash | O (t : OptionTuple).

(** All strings are classified before any is consumed; everything after
    [--] is an argument. *)
Fixpoint classify (p : list Argument) (toks : list string)
    : ArgumentError + list Class :=
  match toks with
  | [] => inr []
  | tok :: rest =>
      if String.eqb tok "--" then inr (dashdash :: ((fun _ => A) <$> rest))
      else match parse_optional p tok with
           | inl e => inl e
           | inr c =>
               match classify p rest with
               | inl e => inl e
               | inr cs => inr (match c with None => A | Some t => O t end :: cs)
               end
           end
  end.

(** What an attribute of the namespace can be: the string given, or the
    empty list that [_get_values] makes of the explicit argument [--]. *)
Inductive Value := str (s : string) | empty_list.

(** What [str()] and an f-string give for an attribute. *)
Definition render (v : Value) : string :=
  match v with
  | str s => s
  | empty_list => "[]"
  end.

Record State := {
  namespace : gmap string Value;
  seen_actions : list string;
  extras : list string;
}.

Definition initial : State :=
  {| namespace := ∅; seen_actions := []; extras := [] |}.

(** What ends the parse early: [parser.error], or the help action, which
    prints the help and calls [parser.exit()]. *)
Inductive Stop := error (e : ArgumentError) | help.

(** A string that no action takes goes to the extras. *)
Definition skip (st : State) (tok : string) : State :=
  {| namespace := namespace st; seen_actions := seen_actions st;
     extras := extras st ++ [tok] |}.

(** [take_action] for a store: [_get_values] drops [--] from the strings of
    an explicit argument, the value is checked against the choices, and
    stored. *)
Definition take_store (a : Argument) (arg : string) (explicit : bool) (st : State)
    : Stop + State :=
  let store v :=
    inr {| namespace := <[dest a := v]> (namespace st);
           seen_actions := seen_actions st ++ [option_string a];
           extras := extras st |} in
  if explicit && String.eqb arg "--" then store empty_list
  else if check_value a arg then store (str arg)
  else inl (error (invalid_choice (option_string a) arg (default [] (choices a)))).

(** [-h] with an explicit argument: the argument is read as more
    single-dash options ([-hh]); the error of a string that is none is
    raised before any action is taken. *)
Fixpoint cluster (p : list Argument) (e : string) (next_A : bool) : Stop :=
  match e with
  | EmptyString => help
  | String c r =>
      match get_action p (String "-"%char (String c EmptyString)) with
      | None => error (ignored_explicit_argument e)
      | Some help_action =>
          match r with
          | EmptyString => help
          | _ => cluster p r next_A
          end
      | Some (store_action a) =>
          match r with
          | EmptyString =>
              if next_A then help else error (expected_one_argument (option_string a))
          | _ => help
          end
      end
  end.

Definition next_is_A (items : list (string * Class)) : bool :=
  match items with
  | (_, A) :: _ => true
  | _ => false
  end.

(** [consume_optional] at each option, left to right; the parser has no
    positional argument, so every other string is an extra.  A store
    without explicit argument needs the next string to be an argument. *)
Fixpoint consume (p : list Argument) (st : State) (items : list (string * Class))
    : Stop + State :=
  match items with
  | [] => inr st
  | (tok, A) :: rest | (tok, dashdash) :: rest | (tok, O (None, _, _)) :: rest =>
      consume p (skip st tok) rest
  | (tok, O (Some (store_action a), _, Some e)) :: rest =>
      match take_store a e true st with
      | inl s => inl s
      | inr st' => consume p st' rest
      end
  | (tok, O (Some (store_action a), _, None)) :: rest =>
      match rest with
      | (v, A) :: rest' =>
          match take_store a v false st with
          | inl s => inl s
          | inr st' => consume p st' rest'
          end
      | _ => inl (error (expected_one_argument (option_string a)))
      end
  | (tok, O (Some help_action, _, None)) :: rest => inl help
  | (tok, O (Some help_action, os, Some e)) :: rest =>
      match os, e with
      | String _ (String c1 _), String _ _ =>
          if Ascii.eqb c1 "-"%char then inl (error (ignored_explicit_argument e))
          else inl (cluster p e (next_is_A rest))
      | _, _ => inl (error (ignored_explicit_argument e))
      end
  end.

Inductive Outcome :=
| parsed (ns : gmap string Value)
| usage (e : ArgumentError)
| help_printed.

(** [parse_args]: the strings are classified, then consumed, then the
    required arguments and the extras are looked at. *)
Definition parse_args (p : list Argument) (toks : list string) : Outcome :=
  match classify p toks with
  | inl e => usage e
  | inr cs =>
      match consume p initial (zip toks cs) with
      | inl (error e) => usage e
      | inl help => help_printed
      | inr st =>
          match missing p (seen_actions st) with
          | (_ :: _) as ms => usage (required_missing ms)
          | [] =>
              match extras st with
              | (_ :: _) as xs => usage (unrecognized xs)
              | [] => parsed (namespace st)
              end
          end
      end
  end.
End argv.

(** ** The gem5 standard library: the classes the script instantiates *)

Module gem5.

Inductive ISA := X86 | ARM | RISCV | MIPS | POWER | SPARC | NULL.

Inductive CoherenceProtocol :=
| MESI_THREE_LEVEL | MESI_TWO_LEVEL | MI_EXAMPLE | MOESI_HAMMER | CHI.

Inductive CPUTypes := ATOMIC | KVM | O3 | TIMING | MINOR.

Inductive ExitEvent :=
| EXIT | WORKBEGIN | WORKEND | SWITCHCPU | FAIL | CHECKPOINT | MAX_TICK.

#[global] Instance ISA_eq_dec : EqDecision ISA.
Proof. solve_decision. Defined.
#[global] Instance CoherenceProtocol_eq_dec : EqDecision CoherenceProtocol.
Proof. solve_decision. Defined.
#[global] Instance ExitEvent_eq_dec : EqDecision ExitEvent.
Proof. solve_decision. Defined.

(** The keyword arguments of each constructor call. *)
Record MESITwoLevelCacheHierarchy := {
  l1d_size : string; l1d_assoc : Z;
  l1i_size : string; l1i_assoc : Z;
  l2_size : string; l2_assoc : Z;
  num_l2_banks : Z;
}.

Record DualChannelDDR4_2400 := { mem_size : string }.

Record SimpleProcessor := {
  cpu_type : CPUTypes; num_cores : Z; isa : ISA;
}.

Record Resource := { resource_id : string; resource_version : string }.

Record DiskImageResource := { local_path : string }.

(** What [set_kernel_disk_workload] attaches to the board. *)
Record KernelDiskWorkload := {
  kernel : Resource;
  disk_image : DiskImageResource;
  readfile_contents : string;
  kernel_args : list string;
}.

Record X86Board := {
  clk_freq : string;
  processor : SimpleProcessor;
  memory : DualChannelDDR4_2400;
  cache_hierarchy : MESITwoLevelCacheHierarchy;
  workload : option KernelDiskWorkload;
}.

(** What a failed [requires] reports. *)
Inductive Unmet :=
| isa_unsupported (i : ISA)
| protocol_unsupported (c : CoherenceProtocol)
| kvm_unavailable.

End gem5.

Import gem5.

(** ** Effects, exceptions and the world *)

(** What the statements of the script do, as seen from outside. *)
Inductive Event :=
| print (line : string)
| print_simulated_seconds (tick : Z)  (* the tick printed divided by 1e12 *)
| print_wallclock                     (* seconds and minutes since globalStart *)
| time_time
| m5_stats_reset
| m5_stats_dump
| processor_switch
| new_cache_hierarchy (c : MESITwoLevelCacheHierarchy)
| new_memory (m : DualChannelDDR4_2400)
| new_processor (p : SimpleProcessor)
| new_board (b : X86Board)
| new_resource (r : Resource)
| new_disk_image (d : DiskImageResource)
| set_workload (w : KernelDiskWorkload)
| new_simulator (b : X86Board) (hooked : list ExitEvent)
| simulator_run
| exit_event (ev : ExitEvent)        (* the simulation loop stopped on ev *)
| default_on_exit (ev : ExitEvent).  (* gem5's own handler for ev ran *)

(** The events that build a simulator object. *)
Definition is_construction (e : Event) : bool :=
  match e with
  | new_cache_hierarchy _ | new_memory _ | new_processor _ | new_board _
  | new_resource _ | new_disk_image _ | new_simulator _ _ => true
  | _ => false
  end.

Definition is_stats_reset (e : Event) : bool :=
  match e with
  | m5_stats_reset => true
  | _ => false
  end.


Inductive Exn :=
| SystemExit (status : Z) (err : option argparse.ArgumentError)
| Exception (what : Unmet)
| IndexError.

(** The status the process ends with: [sys.exit]'s argument, 1 for an
    exception nobody catches.  [SystemExit] carries the error that
    [parser.error] reported, and none when it is [parser.exit()] after the
    help. *)
Definition exit_status (r : Exn + unit) : Z :=
  match r with
  | inr _ => 0
  | inl (SystemExit n _) => n
  | inl _ => 1
  end.

(** What the script cannot see in its own text: the gem5 binary it is run
    by, and what the simulated machine does. *)
Record World := {
  supported_isas : list ISA;
  supported_protocols : list CoherenceProtocol;
  kvm_available : bool;
  guest_exits : list ExitEvent;       (* the exits the simulation raises, in order *)
  default_stops : ExitEvent -> bool;  (* does gem5's own handler end the run *)
  roi_ticks : list Z;                 (* what get_roi_ticks() returns after the run *)
  current_tick : Z;                   (* what get_current_tick() returns after it *)
}.

(** A generator function that was called once: the steps it still has to
    take, each one the effects up to the next [yield] and the value
    yielded. *)
Definition Generator := list (list Event * bool).

Record Simulator := {
  board : X86Board;
  on_exit_event : list (ExitEvent * Generator);
}.

(** ** The monad of the script *)

Definition M (A : Type) : Type := World -> list Event * (Exn + A).

#[global] Instance M_ret : MRet M := fun A (a : A) _ => ([], inr a).

#[global] Instance M_bind : MBind M := fun A B (k : A -> M B) (m : M A) w =>
  match m w with
  | (t, inl x) => (t, inl x)
  | (t, inr a) => let '(t', r) := k a w in (t ++ t', r)
  end.

Definition emit (e : Event) : M unit := fun _ => ([e], inr tt).
Definition emits (es : list Event) : M unit := fun _ => (es, inr tt).
Definition raise {A} (x : Exn) : M A := fun _ => ([], inl x).
Definition ask : M World := fun w => ([], inr w).

(** The trace and the result of a program in a world. *)
Definition trace {A} (m : M A) (w : World) : list Event := (m w).1.
Definition result {A} (m : M A) (w : World) : Exn + A := (m w).2.

(** ** The gem5 calls of the script *)

Definition unless (ok : bool) (x : Exn) : M unit :=
  if ok then mret tt else raise x.

(** Modelled from the spec: [gem5.utils.requires.requires], which is gem5's
    and not in the repository.  Each requirement that is given is checked
    against the build, in the order of the keywords, and the first one the
    build does not meet raises an exception that names it. *)
Definition requires (isa_required : option ISA)
    (coherence_protocol_required : option CoherenceProtocol)
    (kvm_required : option bool) : M unit :=
  w ← ask;
  match isa_required with
  | Some i =>
      unless (bool_decide (i ∈ supported_isas w)) (Exception (isa_unsupported i))
  | None => mret tt
  end;;
  match coherence_protocol_required with
  | Some c =>
      unless (bool_decide (c ∈ supported_protocols w))
        (Exception (protocol_unsupported c))
  | None => mret tt
  end;;
  match kvm_required with
  | Some true => unless (kvm_available w) (Exception kvm_unavailable)
  | _ => mret tt
  end.

Module New.

Definition MESITwoLevelCacheHierarchy (l1d_size : string) (l1d_assoc : Z)
    (l1i_size : string) (l1i_assoc : Z) (l2_size : string) (l2_assoc : Z)
    (num_l2_banks : Z) : M gem5.MESITwoLevelCacheHierarchy :=
  let c := {| gem5.l1d_size := l1d_size; gem5.l1d_assoc := l1d_assoc;
              gem5.l1i_size := l1i_size; gem5.l1i_assoc := l1i_assoc;
              gem5.l2_size := l2_size; gem5.l2_assoc := l2_assoc;
              gem5.num_l2_banks := num_l2_banks |} in
  emit (new_cache_hierarchy c);; mret c.

Definition DualChannelDDR4_2400 (size : string) : M gem5.DualChannelDDR4_2400 :=
  let m := {| mem_size := size |} in
  emit (new_memory m);; mret m.

Definition SimpleProcessor (cpu_type : CPUTypes) (num_cores : Z) (isa : ISA)
    : M gem5.SimpleProcessor :=
  let p := {| gem5.cpu_type := cpu_type; gem5.num_cores := num_cores;
              gem5.isa := isa |} in
  emit (new_processor p);; mret p.

(** A new board has no workload yet. *)
Definition X86Board (clk_freq : string) (processor : gem5.SimpleProcessor)
    (memory : gem5.DualChannelDDR4_2400)
    (cache_hierarchy : gem5.MESITwoLevelCacheHierarchy) : M gem5.X86Board :=
  let b := {| gem5.clk_freq := clk_freq; gem5.processor := processor;
              gem5.memory := memory; gem5.cache_hierarchy := cache_hierarchy;
              workload := None |} in
  emit (new_board b);; mret b.

Definition DiskImageResource (local_path : string) : M gem5.DiskImageResource :=
  let d := {| gem5.local_path := local_path |} in
  emit (new_disk_image d);; mret d.

Definition Simulator (board : gem5.X86Board)
    (on_exit_event : list (ExitEvent * Generator)) : M Simulator :=
  emit (new_simulator board (on_exit_event.*1));;
  mret (Build_Simulator board on_exit_event).

End New.

Definition obtain_resource (resource_id resource_version : string) : M Resource :=
  let r := {| gem5.resource_id := resource_id;
              gem5.resource_version := resource_version |} in
  emit (new_resource r);; mret r.

(** [board.set_kernel_disk_workload(...)] changes the board in place; the
    script has one reference to it, so the changed board is handed on. *)
Definition set_kernel_disk_workload (b : X86Board) (kernel : Resource)
    (disk_image : DiskImageResource) (readfile_contents : string)
    (kernel_args : list string) : M X86Board :=
  let wl := {| gem5.kernel := kernel; gem5.disk_image := disk_image;
               gem5.readfile_contents := readfile_contents;
               gem5.kernel_args := kernel_args |} in
  emit (set_workload wl);;
  mret {| clk_freq := clk_freq b; processor := processor b;
          memory := memory b; cache_hierarchy := cache_hierarchy b;
          workload := Some wl |}.

Definition get_handler (d : list (ExitEvent * Generator)) (ev : ExitEvent)
    : option Generator :=
  snd <$> List.find (fun kv => bool_decide (kv.1 = ev)) d.

Definition set_handler (d : list (ExitEvent * Generator)) (ev : ExitEvent)
    (g : Generator) : list (ExitEvent * Generator) :=
  (fun kv => if bool_decide (kv.1 = ev) then (ev, g) else kv) <$> d.

(** Modelled from the spec: the loop of [Simulator.run], which is gem5's.
    Each time the simulation stops on an exit event, the generator the
    script registered for that event takes its next step and the value it
    yields says whether the run ends; an event with no generator of the
    script's (or with one that has finished) is left to gem5's own
    handler.  What that handler does inside gem5 is not in the
    repository: it is recorded as [default_on_exit] and its verdict is the
    world's. *)
Fixpoint run_loop (stops : ExitEvent -> bool)
    (d : list (ExitEvent * Generator)) (evs : list ExitEvent) : list Event :=
  match evs with
  | [] => []
  | ev :: rest =>
      exit_event ev ::
      match get_handler d ev with
      | Some ((effects, exit_on_completion) :: g) =>
          effects ++
          if exit_on_completion then [] else run_loop stops (set_handler d ev g) rest
      | _ =>
          default_on_exit ev ::
          if stops ev then [] else run_loop stops d rest
      end
  end.

Definition run (s : Simulator) : M unit :=
  w ← ask;
  emits (simulator_run :: run_loop (default_stops w) (on_exit_event s) (guest_exits w)).

Definition get_roi_ticks (s : Simulator) : M (list Z) :=
  w ← ask; mret (roi_ticks w).

Definition get_current_tick (s : Simulator) : M Z :=
  w ← ask; mret (current_tick w).

(** [l[i]] for an index that is not negative. *)
Definition getitem (l : list Z) (i : nat) : M Z :=
  match l !! i with
  | Some x => mret x
  | None => raise IndexError
  end.

(** ** The script *)

(** [size_choices = []], then [append(str(i))] for [i] in [range(1, 17)],
    then [append("USA-road-d.NY.gr")]. *)
Definition size_choices : list string :=
  foldl (fun acc i => acc ++ [Py.str i]) [] (seqZ 1 16) ++ ["USA-road-d.NY.gr"].

Definition benchmark_choices : list string := ["cc"; "bc"; "tc"; "pr"; "bfs"].

(** The three [parser.add_argument] calls.  The [choices] of [--size] are
    commented out in the script. *)
Definition benchmark_argument : argparse.Argument :=
  {| argparse.option_string := "--benchmark"; argparse.dest := "benchmark";
     argparse.required := true; argparse.choices := Some benchmark_choices |}.

Definition size_argument : argparse.Argument :=
  {| argparse.option_string := "--size"; argparse.dest := "size";
     argparse.required := true; argparse.choices := None |}.

Definition synthetic_argument : argparse.Argument :=
  {| argparse.option_string := "--synthetic"; argparse.dest := "synthetic";
     argparse.required := true; argparse.choices := Some ["t"; "f"] |}.

(** The three [add_argument] calls of the script, in order.  The
    [-h]/[--help] action that [ArgumentParser(description=...)] adds on
    its own is [argv.help_action]: [argv.option_string_actions] puts it in
    front of these. *)
Definition parser : list argparse.Argument :=
  [benchmark_argument; size_argument; synthetic_argument].

(** [args = parser.parse_args()], on occurrences. *)
Definition parse_args (argv : list (string * string)) : M (gmap string string) :=
  match argparse.parse_args parser argv with
  | inl e => raise (SystemExit argparse.error_status (Some e))
  | inr ns => mret ns
  end.

(** The command the guest runs after boot. *)
Definition command (args : gmap string string) : string :=
  if bool_decide (args !! "synthetic" = Some "f") then
    "cd /home/gem5/gapbs;"
    +:+ ("./" +:+ Py.format (args !! "benchmark") +:+ " -sf /home/gem5/"
         +:+ Py.format (args !! "size") +:+ " -n 10")
  else
    "cd /home/gem5/gapbs;"
    +:+ ("./" +:+ Py.format (args !! "benchmark") +:+ " -g "
         +:+ Py.format (args !! "size") +:+ " -n 10").

(** The two generator functions the script defines. *)
Definition handle_workbegin : Generator :=
  [ ([print "Done booting Linux";
      print "Resetting stats at the start of ROI!";
      m5_stats_reset;
      processor_switch], false) ].

Definition handle_workend : Generator :=
  [ ([print "Dump stats at the end of the ROI!";
      m5_stats_dump], true) ].

(** The dictionary that is commented out in the [Simulator(...)] call. *)
Definition commented_out_hooks : list (ExitEvent * Generator) :=
  [ (WORKBEGIN, handle_workbegin); (WORKEND, handle_workend) ].

(** The statements of the script, top to bottom, with the [on_exit_event]
    keyword of the [Simulator(...)] call left open. *)
Definition script_with (on_exit_event : list (ExitEvent * Generator))
    (argv : list (string * string)) : M unit :=
  requires (Some X86) (Some MESI_TWO_LEVEL) (Some true);;
  args ← parse_args argv;
  cache_hierarchy ← New.MESITwoLevelCacheHierarchy "32kB" 8 "32kB" 8 "256kB" 16 2;
  memory ← New.DualChannelDDR4_2400 "3GB";
  processor ← New.SimpleProcessor KVM 2 X86;
  board ← New.X86Board "3GHz" processor memory cache_hierarchy;
  kernel ← obtain_resource "x86-linux-kernel-5.4.0-105-generic" "1.0.0";
  disk_image ← New.DiskImageResource
    "/home/bees/gem5-resources/src/x86-ubuntu-24.04-gapbs/disk-image-ubuntu-24-04/x86-ubuntu-24-04";
  board ← set_kernel_disk_workload board kernel disk_image (command args)
    ["earlyprintk=ttyS0"; "console=ttyS0"; "root=/dev/sda2"; "no_systemd=false"];
  simulator ← New.Simulator board on_exit_event;
  emit time_time;;
  emit (print "Running the simulation");;
  emit (print "Using KVM cpu");;
  emit m5_stats_reset;;
  run simulator;;
  emit (print "All simulation events were successful.");;
  emit (print "Done with the simulation");;
  emit (print "");;
  emit (print "Performance statistics:");;
  ticks ← get_roi_ticks simulator;
  t0 ← getitem ticks 0;
  emit (print ("Simulated time in ROI: " +:+ Py.str t0));;
  tick ← get_current_tick simulator;
  emit (print_simulated_seconds tick);;
  emit time_time;;
  emit time_time;;
  emit print_wallclock.

(** The script as it is: no [on_exit_event] is passed. *)
Definition script (argv : list (string * string)) : M unit :=
  script_with [] argv.

(** [args = parser.parse_args()] on the strings of [sys.argv[1:]].  An
    attribute is kept as its text: the script uses the attributes in
    f-strings and in the comparison with ["f"] only. *)
Definition parse_argv (sys_argv : list string) : M (gmap string string) :=
  match argv.parse_args parser sys_argv with
  | argv.usage e => raise (SystemExit argparse.error_status (Some e))
  | argv.help_printed => raise (SystemExit 0 None)
  | argv.parsed ns => mret (argv.render <$> ns)
  end.

(** The script as it is, on the strings of the command line: the same
    statements as [script_with], with no [on_exit_event]. *)
Definition main (sys_argv : list string) : M unit :=
  requires (Some X86) (Some MESI_TWO_LEVEL) (Some true);;
  args ← parse_argv sys_argv;
  cache_hierarchy ← New.MESITwoLevelCacheHierarchy "32kB" 8 "32kB" 8 "256kB" 16 2;
  memory ← New.DualChannelDDR4_2400 "3GB";
  processor ← New.SimpleProcessor KVM 2 X86;
  board ← New.X86Board "3GHz" processor memory cache_hierarchy;
  kernel ← obtain_resource "x86-linux-kernel-5.4.0-105-generic" "1.0.0";
  disk_image ← New.DiskImageResource
    "/home/bees/gem5-resources/src/x86-ubuntu-24.04-gapbs/disk-image-ubuntu-24-04/x86-ubuntu-24-04";
  board ← set_kernel_disk_workload board kernel disk_image (command args)
    ["earlyprintk=ttyS0"; "console=ttyS0"; "root=/dev/sda2"; "no_systemd=false"];
  simulator ← New.Simulator board [];
  emit time_time;;
  emit (print "Running the simulation");;
  emit (print "Using KVM cpu");;
  emit m5_stats_reset;;
  run simulator;;
  emit (print "All simulation events were successful.");;
  emit (print "Done with the simulation");;
  emit (print "");;
  emit (print "Performance statistics:");;
  ticks ← get_roi_ticks simulator;
  t0 ← getitem ticks 0;
  emit (print ("Simulated time in ROI: " +:+ Py.str t0));;
  tick ← get_current_tick simulator;
  emit (print_simulated_seconds tick);;
  emit time_time;;
  emit time_time;;
  emit print_wallclock.

(** The strings of a command line given as occurrences. *)
Definition tokens_of (argv : list (string * string)) : list string :=
  argv ≫= (fun ov => [ov.1; ov.2]).

(** Projections of a trace. *)
Definition constructions (t : list Event) : list Event :=
  List.filter is_construction t.

Definition workloads (t : list Event) : list KernelDiskWorkload :=
  omap (fun e => match e with set_workload w => Some w | _ => None end) t.

Definition simulated_boards (t : list Event) : list X86Board :=
  omap (fun e => match e with new_simulator b _ => Some b | _ => None end) t.

Definition hooked_events (t : list Event) : list ExitEvent :=
  mjoin (omap (fun e => match e with new_simulator _ h => Some h | _ => None end) t).

(** How many events of a kind a trace has. *)
Definition occurrences (f : Event → bool) (t : list Event) : nat :=
  length (List.filter f t).

Definition stats_resets (t : list Event) : nat := occurrences is_stats_reset t.

(** The part of a trace before [simulator.run()] is entered, and the part
    after that. *)
Fixpoint before_run (t : list Event) : list Event :=
  match t with
  | [] => []
  | simulator_run :: _ => []
  | e :: t' => e :: before_run t'
  end.

Fixpoint from_run (t : list Event) : list Event :=
  match t with
  | [] => []
  | simulator_run :: t' => t'
  | _ :: t' => from_run t'
  end.

(** Some worlds and invocations to run the script in. *)
Definition x86_build (exits : list ExitEvent) (ticks : list Z) : World :=
  {| supported_isas := [X86]; supported_protocols := [MESI_TWO_LEVEL];
     kvm_available := true; guest_exits := exits;
     default_stops := fun ev => bool_decide (ev = EXIT);
     roi_ticks := ticks; current_tick := 5000000000000 |}.

Definition arm_build : World :=
  {| supported_isas := [ARM]; supported_protocols := [CHI];
     kvm_available := true; guest_exits := [];
     default_stops := fun ev => bool_decide (ev = EXIT);
     roi_ticks := []; current_tick := 0 |}.

Definition invocation (benchmark size synthetic : string) : list (string * string) :=
  [("--benchmark", benchmark); ("--size", size); ("--synthetic", synthetic)].

(** ** Invariants of the parser's state *)

(** Every attribute in the namespace passed the check of an argument with
    that [dest]. *)
Definition checked (p : list argparse.Argument) (st : argparse.ParseState) : Prop :=
  ∀ d v, argparse.namespace st !! d = Some v →
    ∃ a, a ∈ p ∧ argparse.dest a = d ∧ argparse.check_value a v = true.

(** Every option met so far has its attribute set. *)
Definition stored (p : list argparse.Argument) (st : argparse.ParseState) : Prop :=
  ∀ o, o ∈ argparse.seen_actions st →
    ∃ a, argparse.find_action p o = Some a
         ∧ is_Some (argparse.namespace st !! argparse.dest a).

(** Two states that differ in the values stored only. *)
Definition same_progress (st1 st2 : argparse.ParseState) : Prop :=
  argparse.seen_actions st1 = argparse.seen_actions st2
  ∧ argparse.extras st1 = argparse.extras st2.

(** The build meets what the script requires. *)
Definition build_ok (w : World) : bool :=
  bool_decide (X86 ∈ supported_isas w)
  && bool_decide (MESI_TWO_LEVEL ∈ supported_protocols w)
  && kvm_available w.

(** A board with the guest command blanked. *)
Definition without_readfile (b : X86Board) : X86Board :=
  {| clk_freq := clk_freq b; processor := processor b; memory := memory b;
     cache_hierarchy := cache_hierarchy b;
     workload :=
       (fun wl => {| kernel := kernel wl; disk_image := disk_image wl;
                     readfile_contents := "";
                     kernel_args := kernel_args wl |}) <$> workload b |}.

(** An event with the guest command blanked. *)
Definition blank_readfile (e : Event) : Event :=
  match e with
  | set_workload wl =>
      set_workload {| kernel := kernel wl; disk_image := disk_image wl;
                      readfile_contents := "";
                      kernel_args := kernel_args wl |}
  | new_simulator b hooked => new_simulator (without_readfile b) hooked
  | _ => e
  end.

(** ** Command lines *)

(** The option strings the parser knows. *)
Definition option_strings : list string := argparse.option_string <$> parser.

(** Every occurrence names one of the parser's options by its full name. *)
Definition spelled_in_full (argv : list (string * string)) : Prop :=
  ∀ ov, ov ∈ argv → ov.1 ∈ option_strings.

(** The value of the last occurrence of an option. *)
Fixpoint last_value (o : string) (argv : list (string * string)) : option string :=
  match argv with
  | [] => None
  | ov :: rest =>
      match last_value o rest with
      | Some v => Some v
      | None => if String.eqb ov.1 o then Some ov.2 else None
      end
  end.

(** The options of the occurrences a parser knows, in order, and the
    occurrences it does not know. *)
Definition known (p : list argparse.Argument) (argv : list (string * string))
    : list string :=
  omap (fun ov => argparse.option_string <$> argparse.find_action p ov.1) argv.

Definition unknown (p : list argparse.Argument) (argv : list (string * string))
    : list (string * string) :=
  List.filter
    (fun ov => match argparse.find_action p ov.1 with
               | None => true
               | Some _ => false
               end) argv.

(** The same world with another list of ROI ticks. *)
Definition with_roi_ticks (w : World) (ticks : list Z) : World :=
  {| supported_isas := supported_isas w;
     supported_protocols := supported_protocols w;
     kvm_available := kvm_available w;
     guest_exits := guest_exits w;
     default_stops := default_stops w;
     roi_ticks := ticks;
     current_tick := current_tick w |}.

(** A build with X86 and the MESI two-level protocol on a host without
    KVM. *)
Definition x86_build_without_kvm : World :=
  {| supported_isas := [X86; ARM]; supported_protocols := [MESI_TWO_LEVEL];
     kvm_available := false; guest_exits := [EXIT];
     default_stops := fun ev => bool_decide (ev = EXIT);
     roi_ticks := [1000]; current_tick := 5000000000000 |}.

(** A command line as the usage of the script shows it: the three options
    in full, each followed by a value that does not start with a dash. *)
Definition plain (argv : list (string * string)) : Prop :=
  ∀ ov, ov ∈ argv → ov.1 ∈ option_strings ∧ Py.startswith ov.2 "-" = false.

(** How the strings of such a command line are classified. *)
Definition items_of (argv : list (string * string)) : list (string * argv.Class) :=
  argv ≫= (fun ov =>
    match argparse.find_action parser ov.1 with
    | Some a => [(ov.1, argv.O (Some (argv.store_action a), ov.1, None));
                 (ov.2, argv.A)]
    | None => []
    end).

(** A state of the parser on strings and one of the parser on occurrences
    that hold the same. *)
Definition same_state (st : argv.State) (st' : argparse.ParseState) : Prop :=
  argv.namespace st = argv.str <$> argparse.namespace st'
  ∧ argv.seen_actions st = argparse.seen_actions st'
  ∧ argv.extras st = [] ∧ argparse.extras st' = [].

(** ** Invariants of the parser on strings *)

(** What the namespace holds is the empty list, or a string that passed
    the check of the argument it is stored for. *)
Definition argv_checked (p : list argparse.Argument) (st : argv.State) : Prop :=
  ∀ d v, argv.namespace st !! d = Some v →
    v = argv.empty_list
    ∨ ∃ a s, a ∈ p ∧ argparse.dest a = d ∧ v = argv.str s
             ∧ argparse.check_value a s = true.

(** Every option met has its attribute set. *)
Definition argv_stored (p : list argparse.Argument) (st : argv.State) : Prop :=
  ∀ o, o ∈ argv.seen_actions st →
    ∃ a, a ∈ p ∧ argparse.option_string a = o
         ∧ is_Some (argv.namespace st !! argparse.dest a).

(** The store actions of a classified command line are the parser's. *)
Definition from_parser (p : list argparse.Argument)
    (items : list (string * argv.Class)) : Prop :=
  ∀ tok a os e, (tok, argv.O (Some (argv.store_action a), os, e)) ∈ items → a ∈ p.

(** ** gem5's own handlers *)



(** What is executed when gem5's own handler for the exit event [ev] does
    [defaults ev]: each [default_on_exit ev] of the trace is followed by
    these effects. *)
Definition executed (defaults : ExitEvent → list Event) (t : list Event)
    : list Event :=
  t ≫= (fun e => match e with
                 | default_on_exit ev => e :: defaults ev
                 | _ => [e]
                 end).


(** * Properties *)

(** ** Strings *)

Lemma prefix_app (p s : string) : String.prefix p (p +:+ s) = true.
Proof.
  induction p as [|a p IH]; simpl.
  - by destruct s.
  - by destruct (Ascii.ascii_dec a a).
Qed.

Lemma prefix_inv (p s : string) :
  String.prefix p s = true → ∃ post, s = p +:+ post.
Proof.
  revert s. induction p as [|a p IH]; intros s H.
  - by exists s.
  - destruct s as [|b s]; simpl in H; [done|].
    destruct (Ascii.ascii_dec a b) as [->|]; [|done].
    destruct (IH _ H) as [post ->]. by exists post.
Qed.

Lemma endswith_app (pre suf : string) : Py.endswith (pre +:+ suf) suf = true.
Proof.
  induction pre as [|a pre IH].
  - simpl. destruct suf; simpl; rewrite ?String.eqb_refl, ?Ascii.eqb_refl; done.
  - change (String.eqb (String a (pre +:+ suf)) suf
            || Py.endswith (pre +:+ suf) suf = true).
    rewrite IH. apply orb_true_r.
Qed.

Lemma endswith_inv (s suf : string) :
  Py.endswith s suf = true → ∃ pre, s = pre +:+ suf.
Proof.
  induction s as [|a s IH]; intros H.
  - destruct suf; [by exists ""|done].
  - change (String.eqb (String a s) suf || Py.endswith s suf = true) in H.
    apply orb_true_iff in H as [H|H].
    + apply String.eqb_eq in H as <-. by exists "".
    + destruct (IH H) as [pre ->]. by exists (String a pre).
Qed.

Lemma contains_startswith (s sub : string) :
  Py.startswith s sub = true → Py.contains s sub = true.
Proof. intros H. destruct s; cbn [Py.contains]; by rewrite H. Qed.

Lemma contains_app (pre sub post : string) :
  Py.contains (pre +:+ (sub +:+ post)) sub = true.
Proof.
  induction pre as [|a pre IH].
  - apply contains_startswith. exact (prefix_app sub post).
  - change (Py.startswith (String a (pre +:+ (sub +:+ post))) sub
            || Py.contains (pre +:+ (sub +:+ post)) sub = true).
    rewrite IH. apply orb_true_r.
Qed.

Lemma contains_inv (s sub : string) :
  Py.contains s sub = true → ∃ pre post, s = pre +:+ (sub +:+ post).
Proof.
  induction s as [|a s IH]; intros H.
  - cbn [Py.contains] in H. rewrite orb_false_r in H.
    apply prefix_inv in H as [post ->]. by exists "", post.
  - change (Py.startswith (String a s) sub || Py.contains s sub = true) in H.
    apply orb_true_iff in H as [H|H].
    + apply prefix_inv in H as [post ->]. by exists "", post.
    + destruct (IH H) as (pre & post & ->). by exists (String a pre), post.
Qed.

(** ** The argument parser *)

Section parse_facts.
Import argparse.
Variable p : list Argument.

Lemma find_action_Some o a :
  find_action p o = Some a → a ∈ p ∧ option_string a = o.
Proof.
  intros H. apply List.find_some in H as [Hin Heq].
  split; [by apply list_elem_of_In | by apply String.eqb_eq].
Qed.

Lemma consume_optional_inl st ov e :
  consume_optional p st ov = inl e →
  ∃ a, find_action p ov.1 = Some a ∧ check_value a ov.2 = false
       ∧ e = invalid_choice (option_string a) ov.2 (default [] (choices a)).
Proof.
  unfold consume_optional. destruct (find_action p ov.1) as [a|]; [|done].
  destruct (check_value a ov.2) eqn:E; [done|].
  intros [= <-]. by exists a.
Qed.

Lemma consume_optional_checked st ov st' :
  consume_optional p st ov = inr st' → checked p st → checked p st'.
Proof.
  unfold consume_optional.
  destruct (find_action p ov.1) as [a|] eqn:Ea.
  - destruct (check_value a ov.2) eqn:Ec; [|done].
    intros [= <-] Hst d v. cbn. rewrite lookup_insert.
    case_decide as Hd.
    + intros [= <-]. exists a. by apply find_action_Some in Ea as [? _].
    + apply Hst.
  - intros [= <-]. exact id.
Qed.

Lemma consume_optional_stored st ov st' :
  consume_optional p st ov = inr st' → stored p st → stored p st'.
Proof.
  unfold consume_optional.
  destruct (find_action p ov.1) as [a|] eqn:Ea.
  - destruct (check_value a ov.2) eqn:Ec; [|done].
    intros [= <-] Hst o. cbn. rewrite elem_of_app, list_elem_of_singleton.
    intros [Ho | ->].
    + destruct (Hst o Ho) as (a' & Ha' & Hs). exists a'. split; [done|].
      rewrite lookup_insert. by case_decide.
    + destruct (find_action_Some _ _ Ea) as [_ Heq].
      exists a. rewrite Heq. split; [done|]. rewrite lookup_insert_eq. by eexists.
  - intros [= <-]. exact id.
Qed.

Lemma consume_all_invariants st argv st' :
  consume_all p st argv = inr st' →
  checked p st → stored p st → checked p st' ∧ stored p st'.
Proof.
  revert st. induction argv as [|ov argv IH]; intros st; simpl.
  - by intros [= <-].
  - destruct (consume_optional p st ov) as [e|st1] eqn:E; [done|].
    intros H Hc Hs. apply (IH st1 H).
    + by apply (consume_optional_checked st ov).
    + by apply (consume_optional_stored st ov).
Qed.

Lemma missing_nil seen a :
  missing p seen = [] → a ∈ p → required a = true → option_string a ∈ seen.
Proof.
  unfold missing. intros H Hin Hreq.
  apply fmap_nil_inv in H.
  destruct (decide (option_string a ∈ seen)) as [|Hn]; [done|].
  assert (In a (List.filter
    (fun a => required a && negb (bool_decide (option_string a ∈ seen))) p)) as Hf.
  { apply List.filter_In. split; [by apply list_elem_of_In|].
    rewrite Hreq. by rewrite bool_decide_eq_false_2. }
  rewrite H in Hf. destruct Hf.
Qed.

(** What a successful [parse_args] returns: every attribute passed its
    argument's check, and every required argument has its attribute. *)
Lemma parse_args_inr argv ns :
  parse_args p argv = inr ns →
  (∀ d v, ns !! d = Some v → ∃ a, a ∈ p ∧ dest a = d ∧ check_value a v = true)
  ∧ (∀ a, a ∈ p → required a = true →
       ∃ a', find_action p (option_string a) = Some a' ∧ is_Some (ns !! dest a')).
Proof.
  unfold parse_args.
  destruct (consume_all p initial argv) as [e|st] eqn:E; [done|].
  destruct (missing p (seen_actions st)) eqn:Em; [|done].
  destruct (extras st); [|done]. intros [= <-].
  destruct (consume_all_invariants _ _ _ E) as [Hc Hs].
  - intros d v. cbn. by rewrite lookup_empty.
  - intros o. cbn. by rewrite elem_of_nil.
  - split; [exact Hc|]. intros a Hin Hreq. apply Hs.
    by apply (missing_nil _ a Em).
Qed.

(** An occurrence whose value fails its argument's check ends the parse
    with an invalid-choice error (that of the first such occurrence). *)
Lemma consume_all_invalid st argv o v a :
  (o, v) ∈ argv → find_action p o = Some a → check_value a v = false →
  ∃ o' v' cs, consume_all p st argv = inl (invalid_choice o' v' cs).
Proof.
  intros Hin Ha Hv. revert st.
  induction argv as [|ov argv IH]; intros st; [by apply elem_of_nil in Hin|].
  simpl. destruct (consume_optional p st ov) as [e|st1] eqn:E.
  - apply consume_optional_inl in E as (a' & _ & _ & ->). eauto.
  - apply elem_of_cons in Hin as [<-|Hin]; [|by apply IH].
    unfold consume_optional in E. cbn in E. by rewrite Ha, Hv in E.
Qed.


Lemma consume_all_app st argv1 argv2 :
  consume_all p st (argv1 ++ argv2) =
    match consume_all p st argv1 with
    | inl e => inl e
    | inr st1 => consume_all p st1 argv2
    end.
Proof.
  revert st. induction argv1 as [|ov argv1 IH]; intros st; simpl; [done|].
  by destruct (consume_optional p st ov).
Qed.

(** Whether the parse goes wrong, and how, does not depend on the values
    already stored. *)
Lemma consume_all_same_progress argv st1 st2 :
  same_progress st1 st2 →
  match consume_all p st1 argv, consume_all p st2 argv with
  | inl e1, inl e2 => e1 = e2
  | inr s1, inr s2 => same_progress s1 s2
  | _, _ => False
  end.
Proof.
  revert st1 st2.
  induction argv as [|ov argv IH]; intros st1 st2 [Hs He]; cbn [consume_all].
  - done.
  - unfold consume_optional.
    destruct (find_action p ov.1) as [a|].
    + destruct (check_value a ov.2); [|done].
      apply IH. split; cbn; congruence.
    + apply IH. split; cbn; congruence.
Qed.

End parse_facts.

(** ** The script's own parser *)

Lemma parser_elem a :
  a ∈ parser → a = benchmark_argument ∨ a = size_argument ∨ a = synthetic_argument.
Proof.
  unfold parser. rewrite !elem_of_cons, elem_of_nil. tauto.
Qed.

Lemma parser_accepts argv ns :
  argparse.parse_args parser argv = inr ns →
  ∃ b s y, ns !! "benchmark" = Some b ∧ b ∈ benchmark_choices
           ∧ ns !! "size" = Some s
           ∧ ns !! "synthetic" = Some y ∧ y ∈ ["t"; "f"].
Proof.
  intros H. destruct (parse_args_inr _ _ _ H) as [Hc Hr].
  assert (∀ a, a ∈ parser → ∃ v, ns !! argparse.dest a = Some v) as Hall.
  { intros a Ha.
    assert (argparse.required a = true) as Hreq.
    { by destruct (parser_elem _ Ha) as [->|[->| ->]]. }
    destruct (Hr a Ha Hreq) as (a' & Hf & Hs).
    assert (a' = a) as ->; [|exact Hs].
    destruct (parser_elem _ Ha) as [->|[->| ->]]; by injection Hf. }
  destruct (Hall benchmark_argument) as [b Hb];
    [unfold parser; rewrite !elem_of_cons; auto|].
  destruct (Hall size_argument) as [s Hs];
    [unfold parser; rewrite !elem_of_cons; auto|].
  destruct (Hall synthetic_argument) as [y Hy];
    [unfold parser; rewrite !elem_of_cons; auto|].
  cbn in Hb, Hs, Hy. exists b, s, y. repeat split; try done.
  - destruct (Hc _ _ Hb) as (a & Ha & Hd & Hv).
    destruct (parser_elem _ Ha) as [->|[->| ->]]; try done.
    by apply bool_decide_eq_true_1 in Hv.
  - destruct (Hc _ _ Hy) as (a & Ha & Hd & Hv).
    destruct (parser_elem _ Ha) as [->|[->| ->]]; try done.
    by apply bool_decide_eq_true_1 in Hv.
Qed.

Lemma invocation_accepted b s y :
  b ∈ benchmark_choices → y ∈ ["t"; "f"] →
  argparse.parse_args parser (invocation b s y)
  = inr (<["synthetic" := y]> (<["size" := s]> (<["benchmark" := b]> ∅))).
Proof.
  intros Hb Hy. unfold argparse.parse_args, invocation.
  cbn [argparse.consume_all]. unfold argparse.consume_optional.
  change (argparse.find_action parser ("--benchmark", b).1) with (Some benchmark_argument).
  change (argparse.find_action parser ("--size", s).1) with (Some size_argument).
  change (argparse.find_action parser ("--synthetic", y).1) with (Some synthetic_argument).
  unfold argparse.check_value. cbn [argparse.choices benchmark_argument
    size_argument synthetic_argument snd].
  by rewrite !bool_decide_eq_true_2 by done.
Qed.

(** ** The build check *)

Lemma requires_ok w :
  build_ok w = true →
  requires (Some X86) (Some MESI_TWO_LEVEL) (Some true) w = ([], inr tt).
Proof.
  unfold build_ok. rewrite !andb_true_iff. intros [[H1 H2] H3].
  unfold requires, mbind, M_bind, ask, unless, mret, M_ret. cbn.
  by rewrite H1, H2, H3.
Qed.

Lemma requires_unmet w :
  build_ok w = false →
  ∃ u, requires (Some X86) (Some MESI_TWO_LEVEL) (Some true) w
       = ([], inl (Exception u))
       ∧ (X86 ∉ supported_isas w → u = isa_unsupported X86)
       ∧ (X86 ∈ supported_isas w → MESI_TWO_LEVEL ∉ supported_protocols w →
          u = protocol_unsupported MESI_TWO_LEVEL).
Proof.
  unfold build_ok, requires, mbind, M_bind, ask, unless, mret, M_ret, raise. cbn.
  destruct (bool_decide (X86 ∈ supported_isas w)) eqn:E1; cbn.
  - apply bool_decide_eq_true_1 in E1.
    destruct (bool_decide (MESI_TWO_LEVEL ∈ supported_protocols w)) eqn:E2; cbn.
    + apply bool_decide_eq_true_1 in E2. intros ->.
      eexists. split; [done|]. by split.
    + intros _. eexists. split; [done|]. by split.
  - apply bool_decide_eq_false_1 in E1. intros _.
    eexists. split; [done|]. by split.
Qed.

(** ** Running the script *)

Ltac unfold_script :=
  unfold script, script_with, trace, result;
  cbv beta iota zeta delta
    [mbind M_bind mret M_ret New.MESITwoLevelCacheHierarchy
     New.DualChannelDDR4_2400 New.SimpleProcessor New.X86Board
     New.DiskImageResource New.Simulator obtain_resource
     set_kernel_disk_workload emit emits ask run get_roi_ticks
     get_current_tick getitem raise parse_args].

Ltac tidy :=
  cbn [lookup list_lookup app fst snd fmap list_fmap on_exit_event board
       clk_freq processor memory cache_hierarchy workload].

(** An accepted invocation on a build that meets the requirements: the
    goal becomes the trace (or the result) written out, once for an empty
    list of ROI ticks and once for a list with a first element. *)
Ltac run_script Hb Hp :=
  unfold_script;
  rewrite (requires_ok _ Hb), ?Hp;
  destruct (roi_ticks _) as [|t0 ticks] eqn:Hticks;
  tidy.


(** On a build that does not meet the requirements nothing happens but the
    exception, whatever the command line is. *)
Lemma script_with_unmet w :
  build_ok w = false →
  ∃ u, (∀ h argv, script_with h argv w = ([], inl (Exception u)))
       ∧ (X86 ∉ supported_isas w → u = isa_unsupported X86)
       ∧ (X86 ∈ supported_isas w → MESI_TWO_LEVEL ∉ supported_protocols w →
          u = protocol_unsupported MESI_TWO_LEVEL).
Proof.
  intros Hb. destruct (requires_unmet w Hb) as (u & Hu & H1 & H2).
  exists u. split; [|by split]. intros h argv.
  unfold script_with. cbv beta iota zeta delta [mbind M_bind].
  by rewrite Hu.
Qed.

(** A command line the parser rejects ends the script at [parse_args]. *)
Lemma script_with_rejected h argv w e :
  build_ok w = true → argparse.parse_args parser argv = inl e →
  script_with h argv w = ([], inl (SystemExit 2 (Some e))).
Proof.
  intros Hb Hp. unfold_script. by rewrite (requires_ok _ Hb), Hp.
Qed.

(** With no generator registered the run loop only reports the exits and
    gem5's own handling of them. *)
Lemma run_loop_unhooked stops evs e :
  e ∈ run_loop stops [] evs → ∃ ev, e = exit_event ev ∨ e = default_on_exit ev.
Proof.
  induction evs as [|ev evs IH]; cbn; [by rewrite elem_of_nil|].
  rewrite !elem_of_cons. intros [->|[->|H]]; [eauto..|].
  destruct (stops ev); [by apply elem_of_nil in H|auto].
Qed.

Lemma filter_none (f : Event → bool) (l : list Event) :
  (∀ e, e ∈ l → f e = false) → List.filter f l = [].
Proof.
  induction l as [|x l IH]; intros H; cbn; [done|].
  rewrite (H x); [|by left]. apply IH. intros e He. apply H. by right.
Qed.

Lemma omap_none {B} (f : Event → option B) (l : list Event) :
  (∀ e, e ∈ l → f e = None) → omap f l = [].
Proof.
  induction l as [|x l IH]; intros H; cbn; [done|].
  rewrite (H x); [|by left]. apply IH. intros e He. apply H. by right.
Qed.

Lemma run_loop_unhooked_constructions stops evs :
  constructions (run_loop stops [] evs) = [].
Proof.
  apply filter_none. intros e He.
  by destruct (run_loop_unhooked _ _ _ He) as [ev [->| ->]].
Qed.


Lemma run_loop_unhooked_workloads stops evs :
  workloads (run_loop stops [] evs) = [].
Proof.
  apply omap_none. intros e He.
  by destruct (run_loop_unhooked _ _ _ He) as [ev [->| ->]].
Qed.

Lemma run_loop_unhooked_boards stops evs :
  simulated_boards (run_loop stops [] evs) = [].
Proof.
  apply omap_none. intros e He.
  by destruct (run_loop_unhooked _ _ _ He) as [ev [->| ->]].
Qed.

Lemma workloads_app t1 t2 : workloads (t1 ++ t2) = workloads t1 ++ workloads t2.
Proof. apply omap_app. Qed.

Lemma simulated_boards_app t1 t2 :
  simulated_boards (t1 ++ t2) = simulated_boards t1 ++ simulated_boards t2.
Proof. apply omap_app. Qed.



Lemma before_from_run t :
  simulator_run ∈ t → t = before_run t ++ simulator_run :: from_run t.
Proof.
  induction t as [|e t IH]; [by rewrite elem_of_nil|].
  rewrite elem_of_cons. intros H.
  destruct e; try (cbn; f_equal; apply IH; by destruct H); done.
Qed.

(** The guest command of an accepted invocation is the one workload the
    script sets. *)
Lemma script_workload argv w args :
  build_ok w = true → argparse.parse_args parser argv = inr args →
  readfile_contents <$> workloads (trace (script argv) w) = [command args].
Proof.
  intros Hb Hp. run_script Hb Hp.
  all: cbn [workloads omap list_omap]; fold (workloads).
  all: rewrite workloads_app, run_loop_unhooked_workloads; reflexivity.
Qed.

Lemma contains_app_r (pre s sub : string) :
  Py.contains s sub = true → Py.contains (pre +:+ s) sub = true.
Proof.
  intros H. induction pre as [|a pre IH]; [done|].
  change (Py.startswith (String a (pre +:+ s)) sub
          || Py.contains (pre +:+ s) sub = true).
  rewrite IH. apply orb_true_r.
Qed.

Lemma endswith_app_r (pre s suf : string) :
  Py.endswith s suf = true → Py.endswith (pre +:+ s) suf = true.
Proof.
  intros H. induction pre as [|a pre IH]; [done|].
  change (String.eqb (String a (pre +:+ s)) suf
          || Py.endswith (pre +:+ s) suf = true).
  rewrite IH. apply orb_true_r.
Qed.

(** Both branches of the command end with the trial count. *)
Lemma command_endswith args : Py.endswith (command args) " -n 10" = true.
Proof.
  unfold command. case_bool_decide; by repeat apply endswith_app_r.
Qed.

(** ** The guest command *)

(** C1: with [--synthetic f] and [--size foo.gr] and an accepted benchmark
    name, the guest command the script sets as the workload's readfile
    names the real-graph flag [-sf] with the path [/home/gem5/foo.gr], and
    the trial count [-n 10]. *)
Theorem real_graph_command w argv args :
  build_ok w = true →
  argparse.parse_args parser argv = inr args →
  args !! "size" = Some "foo.gr" →
  args !! "synthetic" = Some "f" →
  ∃ b cmd,
    b ∈ benchmark_choices ∧ args !! "benchmark" = Some b
    ∧ readfile_contents <$> workloads (trace (script argv) w) = [cmd]
    ∧ cmd = "cd /home/gem5/gapbs;./" +:+ b +:+ " -sf /home/gem5/foo.gr -n 10"
    ∧ Py.contains cmd "-sf /home/gem5/foo.gr" = true
    ∧ Py.contains cmd "-n 10" = true.
Proof.
  intros Hb Hp Hs Hy.
  destruct (parser_accepts _ _ Hp) as (b & s & y & Hbn & Hbc & _).
  exists b, (command args). split; [done|]. split; [done|].
  split; [by apply script_workload|].
  assert (command args
          = "cd /home/gem5/gapbs;./" +:+ b +:+ " -sf /home/gem5/foo.gr -n 10") as ->.
  { unfold command. by rewrite Hy, Hs, Hbn, bool_decide_eq_true_2. }
  split; [done|].
  split; by repeat apply contains_app_r.
Qed.

Lemma real_graph_command_witness :
  let w := x86_build [WORKBEGIN; WORKEND; EXIT] [1000] in
  let argv := invocation "bfs" "foo.gr" "f" in
  ∃ b cmd,
    b ∈ benchmark_choices
    ∧ (<["synthetic" := "f"]> (<["size" := "foo.gr"]> (<["benchmark" := "bfs"]> ∅))
        : gmap string string) !! "benchmark" = Some b
    ∧ readfile_contents <$> workloads (trace (script argv) w) = [cmd]
    ∧ cmd = "cd /home/gem5/gapbs;./" +:+ b +:+ " -sf /home/gem5/foo.gr -n 10"
    ∧ Py.contains cmd "-sf /home/gem5/foo.gr" = true
    ∧ Py.contains cmd "-n 10" = true.
Proof.
  apply (real_graph_command
           (x86_build [WORKBEGIN; WORKEND; EXIT] [1000])
           (invocation "bfs" "foo.gr" "f")
           (<["synthetic" := "f"]> (<["size" := "foo.gr"]> (<["benchmark" := "bfs"]> ∅))));
    vm_compute; reflexivity.
Defined.

(** C2: with [--synthetic t] and [--size 8] and an accepted benchmark name,
    the guest command names the generated-graph flag [-g] with the scale 8,
    and the trial count [-n 10]. *)
Theorem synthetic_graph_command w argv args :
  build_ok w = true →
  argparse.parse_args parser argv = inr args →
  args !! "size" = Some "8" →
  args !! "synthetic" = Some "t" →
  ∃ b cmd,
    b ∈ benchmark_choices ∧ args !! "benchmark" = Some b
    ∧ readfile_contents <$> workloads (trace (script argv) w) = [cmd]
    ∧ cmd = "cd /home/gem5/gapbs;./" +:+ b +:+ " -g 8 -n 10"
    ∧ Py.contains cmd "-g 8" = true
    ∧ Py.contains cmd "-n 10" = true.
Proof.
  intros Hb Hp Hs Hy.
  destruct (parser_accepts _ _ Hp) as (b & s & y & Hbn & Hbc & _).
  exists b, (command args). split; [done|]. split; [done|].
  split; [by apply script_workload|].
  assert (command args = "cd /home/gem5/gapbs;./" +:+ b +:+ " -g 8 -n 10") as ->.
  { unfold command. by rewrite Hy, Hs, Hbn, bool_decide_eq_false_2. }
  split; [done|].
  split; by repeat apply contains_app_r.
Qed.

Lemma synthetic_graph_command_witness :
  let w := x86_build [WORKBEGIN; WORKEND; EXIT] [1000] in
  let argv := invocation "pr" "8" "t" in
  ∃ b cmd,
    b ∈ benchmark_choices
    ∧ (<["synthetic" := "t"]> (<["size" := "8"]> (<["benchmark" := "pr"]> ∅))
        : gmap string string) !! "benchmark" = Some b
    ∧ readfile_contents <$> workloads (trace (script argv) w) = [cmd]
    ∧ cmd = "cd /home/gem5/gapbs;./" +:+ b +:+ " -g 8 -n 10"
    ∧ Py.contains cmd "-g 8" = true
    ∧ Py.contains cmd "-n 10" = true.
Proof.
  apply (synthetic_graph_command
           (x86_build [WORKBEGIN; WORKEND; EXIT] [1000])
           (invocation "pr" "8" "t")
           (<["synthetic" := "t"]> (<["size" := "8"]> (<["benchmark" := "pr"]> ∅))));
    vm_compute; reflexivity.
Defined.

(** C3: for every accepted command line, whatever the benchmark, the size
    and the synthetic flag are, the guest command ends with the fixed
    trial count [-n 10]. *)
Theorem command_ends_with_trial_count w argv args :
  build_ok w = true →
  argparse.parse_args parser argv = inr args →
  ∃ cmd,
    readfile_contents <$> workloads (trace (script argv) w) = [cmd]
    ∧ cmd = command args
    ∧ Py.endswith cmd "-n 10" = true
    ∧ ∃ pre, cmd = pre +:+ " -n 10".
Proof.
  intros Hb Hp. exists (command args).
  split; [by apply script_workload|]. split; [done|]. split.
  - unfold command. case_bool_decide; by repeat apply endswith_app_r.
  - apply endswith_inv, command_endswith.
Qed.

Lemma command_ends_with_trial_count_witness :
  let w := x86_build [EXIT] [1000] in
  let argv := invocation "tc" "USA-road-d.NY.gr" "f" in
  ∃ cmd,
    readfile_contents <$> workloads (trace (script argv) w) = [cmd]
    ∧ cmd = command (<["synthetic" := "f"]>
                       (<["size" := "USA-road-d.NY.gr"]> (<["benchmark" := "tc"]> ∅)))
    ∧ Py.endswith cmd "-n 10" = true
    ∧ ∃ pre, cmd = pre +:+ " -n 10".
Proof.
  apply (command_ends_with_trial_count
           (x86_build [EXIT] [1000])
           (invocation "tc" "USA-road-d.NY.gr" "f")
           (<["synthetic" := "f"]>
              (<["size" := "USA-road-d.NY.gr"]> (<["benchmark" := "tc"]> ∅))));
    vm_compute; reflexivity.
Defined.

(** ** Statistics and the region of interest *)

Lemma hooked_events_app t1 t2 :
  hooked_events (t1 ++ t2) = hooked_events t1 ++ hooked_events t2.
Proof. unfold hooked_events. by rewrite omap_app, join_app. Qed.

Lemma hooked_events_cons e t :
  hooked_events (e :: t)
  = match e with new_simulator _ h => h | _ => [] end ++ hooked_events t.
Proof. by destruct e. Qed.

Lemma run_loop_unhooked_hooked stops evs :
  hooked_events (run_loop stops [] evs) = [].
Proof.
  unfold hooked_events. rewrite omap_none; [done|]. intros e He.
  by destruct (run_loop_unhooked _ _ _ He) as [ev [->| ->]].
Qed.


(** What gem5's own handlers add to a trace. *)

Lemma executed_app defaults t1 t2 :
  executed defaults (t1 ++ t2) = executed defaults t1 ++ executed defaults t2.
Proof. unfold executed. by rewrite bind_app. Qed.









(** Had the dictionary that is commented out been passed, the generator
    for WORKBEGIN would reset the statistics a second time, inside the
    run. *)
Example hooks_would_reset_again :
  let t := trace (script_with commented_out_hooks (invocation "bfs" "8" "t"))
             (x86_build [WORKBEGIN; WORKEND; EXIT] [1000]) in
  stats_resets t = 2%nat
  ∧ stats_resets (from_run t) = 1%nat
  ∧ hooked_events t = [WORKBEGIN; WORKEND].
Proof. vm_compute. done. Qed.


(** ** Rejected command lines *)


(** ** The size is not checked *)

(** How an accepted command line ends on a build that meets the
    requirements. *)
Lemma script_result argv w args :
  build_ok w = true → argparse.parse_args parser argv = inr args →
  result (script argv) w
  = match roi_ticks w with [] => inl IndexError | _ :: _ => inr tt end.
Proof. intros Hb Hp. by run_script Hb Hp. Qed.

Lemma consume_all_inl p st argv e :
  argparse.consume_all p st argv = inl e →
  ∃ a v, a ∈ p ∧ argparse.check_value a v = false
         ∧ e = argparse.invalid_choice (argparse.option_string a) v
                 (default [] (argparse.choices a)).
Proof.
  revert st. induction argv as [|ov argv IH]; intros st; cbn [argparse.consume_all];
    [done|].
  destruct (argparse.consume_optional p st ov) as [e'|st1] eqn:E.
  - intros [= <-]. apply consume_optional_inl in E as (a & Ha & Hv & ->).
    apply find_action_Some in Ha as [Ha _]. eauto.
  - apply IH.
Qed.

Lemma parse_args_invalid_choice p argv o v cs :
  argparse.parse_args p argv = inl (argparse.invalid_choice o v cs) →
  ∃ a, a ∈ p ∧ argparse.option_string a = o ∧ argparse.check_value a v = false.
Proof.
  unfold argparse.parse_args.
  destruct (argparse.consume_all p argparse.initial argv) as [e|st] eqn:E.
  - intros [= ->]. apply consume_all_inl in E as (a & v' & Ha & Hv & [= -> -> _]).
    eauto.
  - destruct (argparse.missing p (argparse.seen_actions st)); [|done].
    by destruct (argparse.extras st).
Qed.

(** The value given to an option whose check it passes can be exchanged
    for any other value that passes: the parse fails as before. *)
Lemma parse_args_value_irrelevant p argv1 argv2 o a s s' e :
  argparse.find_action p o = Some a →
  argparse.check_value a s = true → argparse.check_value a s' = true →
  argparse.parse_args p (argv1 ++ (o, s) :: argv2) = inl e →
  argparse.parse_args p (argv1 ++ (o, s') :: argv2) = inl e.
Proof.
  intros Ha Hs Hs'. unfold argparse.parse_args. rewrite !consume_all_app.
  destruct (argparse.consume_all p argparse.initial argv1) as [e1|st1]; [done|].
  cbn [argparse.consume_all]. unfold argparse.consume_optional.
  cbn [fst snd]. rewrite Ha, Hs, Hs'.
  pose proof (consume_all_same_progress p argv2
    {| argparse.namespace := <[argparse.dest a := s]> (argparse.namespace st1);
       argparse.seen_actions := argparse.seen_actions st1 ++ [argparse.option_string a];
       argparse.extras := argparse.extras st1 |}
    {| argparse.namespace := <[argparse.dest a := s']> (argparse.namespace st1);
       argparse.seen_actions := argparse.seen_actions st1 ++ [argparse.option_string a];
       argparse.extras := argparse.extras st1 |} (conj eq_refl eq_refl)) as H.
  destruct (argparse.consume_all p _ argv2) as [eA|stA];
    destruct (argparse.consume_all p _ argv2) as [eB|stB]; try done.
  - by subst.
  - destruct H as [-> ->].
    destruct (argparse.missing p (argparse.seen_actions stB)); [|done].
    by destruct (argparse.extras stB).
Qed.

(** ** The build check comes first *)

(** C8: on a build without X86 or without the MESI two-level protocol the
    script ends with the exception of [requires], which names what is
    missing; nothing is constructed (the trace is empty), the status is
    not zero, and the command line plays no part: it is the same end for
    every [argv], accepted by the parser or not. *)
Theorem build_check_fails_fast w :
  X86 ∉ supported_isas w ∨ MESI_TWO_LEVEL ∉ supported_protocols w →
  ∃ u,
    (u = isa_unsupported X86 ∨ u = protocol_unsupported MESI_TWO_LEVEL)
    ∧ ∀ argv,
        trace (script argv) w = []
        ∧ constructions (trace (script argv) w) = []
        ∧ result (script argv) w = inl (Exception u)
        ∧ exit_status (result (script argv) w) ≠ 0.
Proof.
  intros H.
  assert (build_ok w = false) as Hb.
  { unfold build_ok. destruct H as [H|H]; rewrite (bool_decide_eq_false_2 _ H);
      [done|]. by rewrite andb_false_r. }
  destruct (script_with_unmet w Hb) as (u & Hu & H1 & H2).
  exists u. split.
  - destruct (decide (X86 ∈ supported_isas w)) as [Hin|Hn]; [|by left; apply H1].
    right. apply H2; [done|]. by destruct H.
  - intros argv. unfold script, trace, result. rewrite Hu. by cbn.
Qed.

Lemma build_check_fails_fast_witness :
  ∃ u,
    (u = isa_unsupported X86 ∨ u = protocol_unsupported MESI_TWO_LEVEL)
    ∧ ∀ argv,
        trace (script argv) arm_build = []
        ∧ constructions (trace (script argv) arm_build) = []
        ∧ result (script argv) arm_build = inl (Exception u)
        ∧ exit_status (result (script argv) arm_build) ≠ 0.
Proof.
  apply (build_check_fails_fast arm_build).
  left. apply (bool_decide_unpack _). vm_compute. exact I.
Defined.

(** ** What the arguments reach *)

Lemma simulated_boards_cons e t :
  simulated_boards (e :: t)
  = match e with new_simulator b _ => [b] | _ => [] end ++ simulated_boards t.
Proof. by destruct e. Qed.

(** C9: two accepted command lines lead to the same run but for the guest
    command: with the readfile blanked the two traces are the same event
    for event, the results are the same, and the boards handed to the
    simulator have the same cache hierarchy, memory, processor, clock,
    kernel, disk image and kernel arguments; their readfiles are the
    commands of the two command lines. *)
Theorem arguments_reach_only_the_command w argv1 argv2 args1 args2 :
  build_ok w = true →
  argparse.parse_args parser argv1 = inr args1 →
  argparse.parse_args parser argv2 = inr args2 →
  let t1 := trace (script argv1) w in
  let t2 := trace (script argv2) w in
  blank_readfile <$> t1 = blank_readfile <$> t2
  ∧ result (script argv1) w = result (script argv2) w
  ∧ ∃ b1 b2,
      simulated_boards t1 = [b1] ∧ simulated_boards t2 = [b2]
      ∧ without_readfile b1 = without_readfile b2
      ∧ cache_hierarchy b1 = cache_hierarchy b2
      ∧ memory b1 = memory b2
      ∧ processor b1 = processor b2
      ∧ clk_freq b1 = clk_freq b2
      ∧ kernel <$> workload b1 = kernel <$> workload b2
      ∧ disk_image <$> workload b1 = disk_image <$> workload b2
      ∧ kernel_args <$> workload b1 = kernel_args <$> workload b2
      ∧ readfile_contents <$> workload b1 = Some (command args1)
      ∧ readfile_contents <$> workload b2 = Some (command args2).
Proof.
  intros Hb Hp1 Hp2 t1 t2. subst t1 t2.
  unfold_script. rewrite (requires_ok _ Hb), Hp1, Hp2.
  destruct (roi_ticks w) as [|t0 ticks]; tidy.
  all: split; [reflexivity|]; split; [reflexivity|].
  all: eexists _, _.
  all: rewrite !simulated_boards_cons, !simulated_boards_app,
         !run_loop_unhooked_boards.
  all: repeat split; reflexivity.
Qed.

Lemma arguments_reach_only_the_command_witness :
  let w := x86_build [WORKBEGIN; WORKEND; EXIT] [1000] in
  let t1 := trace (script (invocation "bfs" "8" "t")) w in
  let t2 := trace (script (invocation "cc" "USA-road-d.NY.gr" "f")) w in
  blank_readfile <$> t1 = blank_readfile <$> t2
  ∧ result (script (invocation "bfs" "8" "t")) w
    = result (script (invocation "cc" "USA-road-d.NY.gr" "f")) w
  ∧ ∃ b1 b2,
      simulated_boards t1 = [b1] ∧ simulated_boards t2 = [b2]
      ∧ without_readfile b1 = without_readfile b2
      ∧ cache_hierarchy b1 = cache_hierarchy b2
      ∧ memory b1 = memory b2
      ∧ processor b1 = processor b2
      ∧ clk_freq b1 = clk_freq b2
      ∧ kernel <$> workload b1 = kernel <$> workload b2
      ∧ disk_image <$> workload b1 = disk_image <$> workload b2
      ∧ kernel_args <$> workload b1 = kernel_args <$> workload b2
      ∧ readfile_contents <$> workload b1
        = Some (command (<["synthetic" := "t"]>
                           (<["size" := "8"]> (<["benchmark" := "bfs"]> ∅))))
      ∧ readfile_contents <$> workload b2
        = Some (command (<["synthetic" := "f"]>
                           (<["size" := "USA-road-d.NY.gr"]>
                              (<["benchmark" := "cc"]> ∅)))).
Proof.
  apply (arguments_reach_only_the_command
           (x86_build [WORKBEGIN; WORKEND; EXIT] [1000])
           (invocation "bfs" "8" "t")
           (invocation "cc" "USA-road-d.NY.gr" "f")
           (<["synthetic" := "t"]> (<["size" := "8"]> (<["benchmark" := "bfs"]> ∅)))
           (<["synthetic" := "f"]>
              (<["size" := "USA-road-d.NY.gr"]> (<["benchmark" := "cc"]> ∅))));
    vm_compute; reflexivity.
Defined.

(** The two command lines of the witness do differ in the guest command. *)
Example commands_differ :
  command (<["synthetic" := "t"]> (<["size" := "8"]> (<["benchmark" := "bfs"]> ∅)))
  ≠ command (<["synthetic" := "f"]>
               (<["size" := "USA-road-d.NY.gr"]> (<["benchmark" := "cc"]> ∅))).
Proof. vm_compute. discriminate. Qed.

(** ** Indexing the ROI ticks *)

(** C10: after the run the script takes element 0 of the list of ROI ticks
    without looking at the list first.  With an empty list the indexing
    raises [IndexError]: the run has been made and the heading of the
    report printed, the line with the ROI time and what follows it are
    not, and the status is not zero.  With a first element the script
    prints it and runs to its end.  Either way no exit event had a
    generator of the script. *)
Theorem roi_ticks_indexed_unchecked w argv args :
  build_ok w = true →
  argparse.parse_args parser argv = inr args →
  let t := trace (script argv) w in
  let loop := run_loop (default_stops w) [] (guest_exits w) in
  hooked_events t = []
  ∧ (roi_ticks w = [] →
       result (script argv) w = inl IndexError
       ∧ exit_status (result (script argv) w) ≠ 0
       ∧ from_run t
         = loop ++ [print "All simulation events were successful.";
                    print "Done with the simulation";
                    print "";
                    print "Performance statistics:"])
  ∧ (∀ t0 ticks, roi_ticks w = t0 :: ticks →
       result (script argv) w = inr tt
       ∧ from_run t
         = loop ++ [print "All simulation events were successful.";
                    print "Done with the simulation";
                    print "";
                    print "Performance statistics:";
                    print ("Simulated time in ROI: " +:+ Py.str t0);
                    print_simulated_seconds (current_tick w);
                    time_time; time_time; print_wallclock]).
Proof.
  intros Hb Hp t loop. subst t loop. run_script Hb Hp.
  all: cbn [from_run].
  all: split; [by rewrite !hooked_events_cons, hooked_events_app,
                    run_loop_unhooked_hooked|].
  all: split; [intros Hn | intros t1 ticks' Hn]; try discriminate Hn.
  - done.
  - by injection Hn as -> ->.
Qed.

Lemma roi_ticks_indexed_unchecked_witness :
  let w := x86_build [WORKBEGIN; WORKEND; EXIT] [] in
  let argv := invocation "bfs" "8" "t" in
  let t := trace (script argv) w in
  let loop := run_loop (default_stops w) [] (guest_exits w) in
  hooked_events t = []
  ∧ (roi_ticks w = [] →
       result (script argv) w = inl IndexError
       ∧ exit_status (result (script argv) w) ≠ 0
       ∧ from_run t
         = loop ++ [print "All simulation events were successful.";
                    print "Done with the simulation";
                    print "";
                    print "Performance statistics:"])
  ∧ (∀ t0 ticks, roi_ticks w = t0 :: ticks →
       result (script argv) w = inr tt
       ∧ from_run t
         = loop ++ [print "All simulation events were successful.";
                    print "Done with the simulation";
                    print "";
                    print "Performance statistics:";
                    print ("Simulated time in ROI: " +:+ Py.str t0);
                    print_simulated_seconds (current_tick w);
                    time_time; time_time; print_wallclock]).
Proof.
  apply (roi_ticks_indexed_unchecked
           (x86_build [WORKBEGIN; WORKEND; EXIT] [])
           (invocation "bfs" "8" "t")
           (<["synthetic" := "t"]> (<["size" := "8"]> (<["benchmark" := "bfs"]> ∅))));
    vm_compute; reflexivity.
Defined.

(** The two ends of the report, run. *)
Example report_without_roi :
  result (script (invocation "bfs" "8" "t"))
    (x86_build [WORKBEGIN; WORKEND; EXIT] []) = inl IndexError.
Proof. reflexivity. Qed.

Example report_with_roi :
  result (script (invocation "bfs" "8" "t"))
    (x86_build [WORKBEGIN; WORKEND; EXIT] [1000; 2000]) = inr tt
  ∧ print "Simulated time in ROI: 1000"
    ∈ trace (script (invocation "bfs" "8" "t"))
        (x86_build [WORKBEGIN; WORKEND; EXIT] [1000; 2000]).
Proof.
  split; [reflexivity|]. vm_compute.
  repeat (first [apply list_elem_of_here | apply list_elem_of_further]).
Qed.

(** * Further properties *)

(** ** Which command lines the parser accepts *)

Lemma filter_none_gen {A} (f : A → bool) (l : list A) :
  (∀ x, x ∈ l → f x = false) → List.filter f l = [].
Proof.
  induction l as [|x l IH]; intros H; cbn; [done|].
  rewrite (H x); [|by left]. apply IH. intros e He. apply H. by right.
Qed.

Lemma find_action_None p o :
  argparse.find_action p o = None ↔ o ∉ argparse.option_string <$> p.
Proof.
  unfold argparse.find_action. induction p as [|a p IH]; cbn.
  - split; [intros _; apply not_elem_of_nil|done].
  - rewrite not_elem_of_cons. destruct (String.eqb_spec (argparse.option_string a) o).
    + split; [done|]. by intros [? _].
    + rewrite IH. split; [by split|by intros [_ ?]].
Qed.

Lemma find_action_is_Some p o :
  o ∈ argparse.option_string <$> p →
  ∃ a, argparse.find_action p o = Some a ∧ a ∈ p ∧ argparse.option_string a = o.
Proof.
  intros H. destruct (argparse.find_action p o) as [a|] eqn:E.
  - exists a. split; [done|]. by apply find_action_Some.
  - by apply find_action_None in E.
Qed.

(** When every value passes its argument's check, the occurrences are all
    consumed: the known ones are seen, the unknown ones are left over. *)
Lemma consume_all_valid p st argv :
  (∀ ov a, ov ∈ argv → argparse.find_action p ov.1 = Some a →
           argparse.check_value a ov.2 = true) →
  ∃ st', argparse.consume_all p st argv = inr st'
         ∧ argparse.seen_actions st' = argparse.seen_actions st ++ known p argv
         ∧ argparse.extras st' = argparse.extras st ++ unknown p argv.
Proof.
  revert st. induction argv as [|ov argv IH]; intros st Hv.
  - exists st. cbn. by rewrite !app_nil_r.
  - cbn [argparse.consume_all]. unfold argparse.consume_optional, known, unknown.
    cbn [omap list_omap List.filter].
    destruct (argparse.find_action p ov.1) as [a|] eqn:E.
    + rewrite (Hv ov a); [|by left|done].
      edestruct IH as (st' & -> & Hs & He);
        [intros ov' a' Hin; apply Hv; by right|].
      exists st'. split; [done|]. cbn in Hs, He. split; [|done].
      by rewrite Hs, <- app_assoc.
    + edestruct IH as (st' & -> & Hs & He);
        [intros ov' a' Hin; apply Hv; by right|].
      exists st'. split; [done|]. cbn in Hs, He. split; [done|].
      by rewrite He, <- app_assoc.
Qed.

Lemma consume_all_inr_valid p st argv st' ov a :
  argparse.consume_all p st argv = inr st' →
  ov ∈ argv → argparse.find_action p ov.1 = Some a →
  argparse.check_value a ov.2 = true.
Proof.
  intros H Hin Ha. destruct (argparse.check_value a ov.2) eqn:E; [done|].
  destruct ov as [o v].
  destruct (consume_all_invalid p st argv o v a Hin Ha E) as (? & ? & ? & H').
  by rewrite H' in H.
Qed.

Lemma missing_nil_intro p seen :
  (∀ a, a ∈ p → argparse.required a = true → argparse.option_string a ∈ seen) →
  argparse.missing p seen = [].
Proof.
  intros H. unfold argparse.missing.
  rewrite filter_none_gen; [done|]. intros a Ha.
  destruct (argparse.required a) eqn:Hr; [|done].
  by rewrite (bool_decide_eq_true_2 _ (H a Ha Hr)).
Qed.

Lemma elem_of_known p argv o :
  o ∈ known p argv ↔
  ∃ v a, (o, v) ∈ argv ∧ argparse.find_action p o = Some a.
Proof.
  unfold known. rewrite list_elem_of_omap. split.
  - intros ([o' v] & Hin & H). cbn in H.
    destruct (argparse.find_action p o') as [a|] eqn:E; [|done].
    injection H as <-. destruct (find_action_Some _ _ _ E) as [_ Ho].
    rewrite Ho in *. eauto.
  - intros (v & a & Hin & Ha). exists (o, v). split; [done|]. cbn.
    rewrite Ha. cbn. f_equal. by apply (find_action_Some p o a).
Qed.

Lemma parser_find a :
  a ∈ parser → argparse.find_action parser (argparse.option_string a) = Some a.
Proof. intros H. by destruct (parser_elem _ H) as [->|[->| ->]]. Qed.

Lemma parser_dest_inj a a' :
  a ∈ parser → a' ∈ parser → argparse.dest a = argparse.dest a' → a = a'.
Proof.
  intros H H'.
  by destruct (parser_elem _ H) as [->|[->| ->]];
     destruct (parser_elem _ H') as [->|[->| ->]].
Qed.

Lemma elem_of_fst (argv : list (string * string)) o :
  o ∈ argv.*1 ↔ ∃ v, (o, v) ∈ argv.
Proof.
  rewrite list_elem_of_fmap. split.
  - intros ([o' v] & -> & Hin). by exists v.
  - intros [v Hin]. by exists (o, v).
Qed.

Lemma spelled_in_full_unknown argv :
  spelled_in_full argv → unknown parser argv = [].
Proof.
  intros H. apply filter_none_gen. intros ov Hin.
  by destruct (find_action_is_Some parser ov.1 (H ov Hin)) as (a & -> & _).
Qed.

Lemma elem_of_missing p seen o :
  o ∈ argparse.missing p seen ↔
  ∃ a, a ∈ p ∧ argparse.option_string a = o ∧ argparse.required a = true ∧ o ∉ seen.
Proof.
  unfold argparse.missing. rewrite list_elem_of_fmap. split.
  - intros (a & -> & Hin). apply list_elem_of_In, List.filter_In in Hin as [Hin Hf].
    apply andb_true_iff in Hf as [Hr Hs]. apply negb_true_iff in Hs.
    exists a. repeat split; [by apply list_elem_of_In|done|].
    by apply bool_decide_eq_false_1 in Hs.
  - intros (a & Hin & <- & Hr & Hs). exists a. split; [done|].
    apply list_elem_of_In, List.filter_In. split; [by apply list_elem_of_In|].
    by rewrite Hr, (bool_decide_eq_false_2 _ Hs).
Qed.

(** On occurrences: a command line that names its options in full is
    accepted exactly when every value given to [--benchmark] is one of the
    five benchmarks, every value given to [--synthetic] is [t] or [f], and
    each of the three options occurs at least once. *)
Lemma parse_args_accepted_iff argv :
  spelled_in_full argv →
  (∃ args, argparse.parse_args parser argv = inr args) ↔
  (∀ v, ("--benchmark", v) ∈ argv → v ∈ benchmark_choices)
  ∧ (∀ v, ("--synthetic", v) ∈ argv → v ∈ ["t"; "f"])
  ∧ "--benchmark" ∈ argv.*1 ∧ "--size" ∈ argv.*1 ∧ "--synthetic" ∈ argv.*1.
Proof.
  intros Hfull. split.
  - intros [args H]. unfold argparse.parse_args in H.
    destruct (argparse.consume_all parser argparse.initial argv) as [e|st] eqn:E;
      [done|].
    destruct (argparse.missing parser (argparse.seen_actions st)) eqn:Em; [|done].
    assert (∀ a, a ∈ parser → argparse.option_string a ∈ argv.*1) as Hseen.
    { intros a Ha.
      destruct (consume_all_valid parser argparse.initial argv) as (st' & E' & Hs & _).
      { intros ov a' Hin Hf. by apply (consume_all_inr_valid _ _ _ _ _ _ E Hin). }
      rewrite E in E'. injection E' as <-. cbn in Hs.
      assert (argparse.option_string a ∈ argparse.seen_actions st) as Hin.
      { apply (missing_nil parser _ a Em Ha).
        by destruct (parser_elem _ Ha) as [->|[->| ->]]. }
      rewrite Hs in Hin. apply elem_of_known in Hin as (v & _ & Hin & _).
      apply elem_of_fst. eauto. }
    split; [|split; [|split; [|split]]].
    + intros v Hin. apply (bool_decide_eq_true_1 (v ∈ benchmark_choices)).
      by apply (consume_all_inr_valid _ _ _ _ ("--benchmark", v) benchmark_argument E).
    + intros v Hin. apply (bool_decide_eq_true_1 (v ∈ ["t"; "f"])).
      by apply (consume_all_inr_valid _ _ _ _ ("--synthetic", v) synthetic_argument E).
    + apply (Hseen benchmark_argument). unfold parser. rewrite !elem_of_cons. auto.
    + apply (Hseen size_argument). unfold parser. rewrite !elem_of_cons. auto.
    + apply (Hseen synthetic_argument). unfold parser. rewrite !elem_of_cons. auto.
  - intros (Hb & Hy & Pb & Ps & Py).
    destruct (consume_all_valid parser argparse.initial argv) as (st' & E & Hs & He).
    { intros [o v] a Hin Hf. apply find_action_Some in Hf as [Ha Ho]. cbn in *.
      destruct (parser_elem _ Ha) as [->|[->| ->]]; cbn in Ho; subst o;
        unfold argparse.check_value; cbn; [|done|]; apply bool_decide_eq_true_2; auto. }
    unfold argparse.parse_args. rewrite E, Hs, He, (spelled_in_full_unknown _ Hfull).
    cbn [argparse.seen_actions argparse.extras argparse.initial app].
    rewrite missing_nil_intro; [by eexists|].
    intros a Ha _. apply elem_of_known.
    assert (argparse.option_string a ∈ argv.*1) as Hin.
    { by destruct (parser_elem _ Ha) as [->|[->| ->]]. }
    apply elem_of_fst in Hin as [v Hin]. exists v, a. split; [done|].
    by apply parser_find.
Qed.

(** On occurrences: leaving out one of the three options ends the script
    at [parse_args]. *)
Lemma script_missing_option w argv o :
  spelled_in_full argv →
  o ∈ option_strings →
  o ∉ argv.*1 →
  trace (script argv) w = []
  ∧ exit_status (result (script argv) w) ≠ 0
  ∧ (build_ok w = true →
     ∃ e, result (script argv) w = inl (SystemExit 2 (Some e))
          ∧ ((∃ o' v cs, e = argparse.invalid_choice o' v cs)
             ∨ (∃ ms, e = argparse.required_missing ms ∧ o ∈ ms))).
Proof.
  intros Hfull Ho Hout.
  assert (∃ e, argparse.parse_args parser argv = inl e
               ∧ ((∃ o' v cs, e = argparse.invalid_choice o' v cs)
                  ∨ (∃ ms, e = argparse.required_missing ms ∧ o ∈ ms))) as (e & He & Hk).
  { unfold argparse.parse_args.
    destruct (argparse.consume_all parser argparse.initial argv) as [e|st] eqn:E.
    - exists e. split; [done|]. left.
      apply consume_all_inl in E as (a & v & _ & _ & ->). eauto.
    - destruct (consume_all_valid parser argparse.initial argv) as (st' & E' & Hs & _).
      { intros ov a' Hin Hf. by apply (consume_all_inr_valid _ _ _ _ _ _ E Hin). }
      rewrite E in E'. injection E' as <-. cbn in Hs.
      assert (o ∈ argparse.missing parser (argparse.seen_actions st)) as Hm.
      { apply elem_of_missing.
        apply find_action_is_Some in Ho as (a & _ & Ha & Hoa).
        exists a. split; [done|]. split; [done|]. split.
        - by destruct (parser_elem _ Ha) as [->|[->| ->]].
        - rewrite Hs. intros Hin. apply elem_of_known in Hin as (v & _ & Hin & _).
          apply Hout, elem_of_fst. eauto. }
      destruct (argparse.missing parser (argparse.seen_actions st)) as [|m ms];
        [by apply elem_of_nil in Hm|].
      eexists. split; [done|]. right. eauto. }
  unfold script, trace, result. destruct (build_ok w) eqn:Hb.
  - rewrite (script_with_rejected [] argv w e Hb He). cbn.
    repeat split; try done. intros _. eauto.
  - destruct (script_with_unmet w Hb) as (u & Hu & _). rewrite Hu. cbn.
    repeat split; done.
Qed.

(** ** Repeated options *)

Lemma consume_all_last st argv st' a :
  a ∈ parser →
  argparse.consume_all parser st argv = inr st' →
  argparse.namespace st' !! argparse.dest a
  = match last_value (argparse.option_string a) argv with
    | Some v => Some v
    | None => argparse.namespace st !! argparse.dest a
    end.
Proof.
  intros Ha. revert st. induction argv as [|[o v] argv IH]; intros st.
  - by intros [= <-].
  - cbn [argparse.consume_all last_value].
    destruct (argparse.consume_optional parser st (o, v)) as [e|st1] eqn:E; [done|].
    intros H. rewrite (IH st1 H).
    destruct (last_value (argparse.option_string a) argv); [done|].
    unfold argparse.consume_optional in E. cbn [fst snd] in *.
    destruct (argparse.find_action parser o) as [a0|] eqn:E0.
    + destruct (argparse.check_value a0 v); [|done]. injection E as <-. cbn.
      destruct (find_action_Some _ _ _ E0) as [Ha0 <-].
      destruct (String.eqb_spec (argparse.option_string a0) (argparse.option_string a))
        as [Heq|Hne].
      * assert (a0 = a) as ->.
        { rewrite Heq, (parser_find a Ha) in E0. by injection E0. }
        apply lookup_insert_eq.
      * apply lookup_insert_ne. intros Hd. apply Hne.
        by rewrite (parser_dest_inj a0 a Ha0 Ha Hd).
    + injection E as <-. cbn.
      destruct (String.eqb_spec o (argparse.option_string a)) as [->|]; [|done].
      by rewrite (parser_find a Ha) in E0.
Qed.

Lemma accepted_last_value argv args a :
  a ∈ parser →
  argparse.parse_args parser argv = inr args →
  args !! argparse.dest a = last_value (argparse.option_string a) argv.
Proof.
  intros Ha Hp. unfold argparse.parse_args in Hp.
  destruct (argparse.consume_all parser argparse.initial argv) as [e|st] eqn:E;
    [done|].
  destruct (argparse.missing parser (argparse.seen_actions st)); [|done].
  destruct (argparse.extras st); [|done]. injection Hp as <-.
  rewrite (consume_all_last _ _ _ a Ha E). cbn. rewrite lookup_empty.
  by destruct (last_value (argparse.option_string a) argv).
Qed.

(** The namespace of an accepted command line has the three attributes and
    no other. *)
Lemma accepted_namespace argv args :
  argparse.parse_args parser argv = inr args →
  ∃ b s y, b ∈ benchmark_choices ∧ y ∈ ["t"; "f"]
           ∧ args = <["synthetic" := y]> (<["size" := s]> (<["benchmark" := b]> ∅)).
Proof.
  intros Hp.
  destruct (parser_accepts _ _ Hp) as (b & s & y & Hb & Hbc & Hs & Hy & Hyc).
  destruct (parse_args_inr _ _ _ Hp) as [Hc _].
  exists b, s, y. split; [done|]. split; [done|].
  apply map_eq. intros k. rewrite !lookup_insert.
  repeat case_decide; subst; try done.
  rewrite lookup_empty. destruct (args !! k) as [v|] eqn:Ek; [|done].
  destruct (Hc _ _ Ek) as (a & Ha & Hd & _).
  by destruct (parser_elem _ Ha) as [->|[->| ->]]; cbn in Hd.
Qed.

(** X3: when an option is given more than once, the last value is the one
    that counts: an accepted command line is parsed to the namespace that
    holds, for each of the three options, the value of its last
    occurrence and nothing else, and the guest command is built from
    these. *)
Theorem last_occurrence_wins w argv args :
  build_ok w = true →
  argparse.parse_args parser argv = inr args →
  ∃ b s y,
    last_value "--benchmark" argv = Some b
    ∧ last_value "--size" argv = Some s
    ∧ last_value "--synthetic" argv = Some y
    ∧ args = <["synthetic" := y]> (<["size" := s]> (<["benchmark" := b]> ∅))
    ∧ readfile_contents <$> workloads (trace (script argv) w)
      = [command (<["synthetic" := y]> (<["size" := s]> (<["benchmark" := b]> ∅)))].
Proof.
  intros Hw Hp.
  destruct (parser_accepts _ _ Hp) as (b & s & y & Hb & _ & Hs & Hy & _).
  pose proof (fun a Ha => accepted_last_value argv args a Ha Hp) as Hl.
  assert (args = <["synthetic" := y]> (<["size" := s]> (<["benchmark" := b]> ∅)))
    as Hargs.
  { destruct (accepted_namespace _ _ Hp) as (b' & s' & y' & _ & _ & Hn).
    rewrite Hn in Hb, Hs, Hy. rewrite Hn.
    rewrite lookup_insert_ne, lookup_insert_ne, lookup_insert_eq in Hb by done.
    rewrite lookup_insert_ne, lookup_insert_eq in Hs by done.
    rewrite lookup_insert_eq in Hy. by simplify_eq. }
  assert (benchmark_argument ∈ parser ∧ size_argument ∈ parser
          ∧ synthetic_argument ∈ parser) as (I1 & I2 & I3).
  { unfold parser. rewrite !elem_of_cons. repeat split; auto. }
  pose proof (Hl _ I1) as L1. pose proof (Hl _ I2) as L2. pose proof (Hl _ I3) as L3.
  cbn in L1, L2, L3. exists b, s, y. rewrite <- L1, <- L2, <- L3.
  repeat split; try done.
  rewrite <- Hargs. by apply script_workload.
Qed.

Lemma last_occurrence_wins_witness :
  let w := x86_build [WORKBEGIN; WORKEND; EXIT] [1000] in
  let argv := [("--size", "4"); ("--synthetic", "f"); ("--benchmark", "pr");
               ("--synthetic", "t"); ("--size", "6")] in
  ∃ b s y,
    last_value "--benchmark" argv = Some b
    ∧ last_value "--size" argv = Some s
    ∧ last_value "--synthetic" argv = Some y
    ∧ (<["synthetic" := "t"]> (<["size" := "6"]> (<["benchmark" := "pr"]> ∅))
        : gmap string string)
      = <["synthetic" := y]> (<["size" := s]> (<["benchmark" := b]> ∅))
    ∧ readfile_contents <$> workloads (trace (script argv) w)
      = [command (<["synthetic" := y]> (<["size" := s]> (<["benchmark" := b]> ∅)))].
Proof.
  apply (last_occurrence_wins
           (x86_build [WORKBEGIN; WORKEND; EXIT] [1000])
           [("--size", "4"); ("--synthetic", "f"); ("--benchmark", "pr");
            ("--synthetic", "t"); ("--size", "6")]
           (<["synthetic" := "t"]> (<["size" := "6"]> (<["benchmark" := "pr"]> ∅))));
    vm_compute; reflexivity.
Defined.

Example repeated_size :
  readfile_contents <$> workloads
    (trace (script [("--size", "4"); ("--synthetic", "f"); ("--benchmark", "pr");
                    ("--synthetic", "t"); ("--size", "6")])
       (x86_build [EXIT] [1000]))
  = ["cd /home/gem5/gapbs;./pr -g 6 -n 10"].
Proof. reflexivity. Qed.

(** ** The shape of the guest command *)








(** ** The ends of the script *)

(** X6: KVM is required as well: on a build with X86 and the MESI
    two-level protocol whose host has no KVM, the script ends with the
    exception of [requires] for KVM, with nothing constructed, whatever the
    command line is. *)
Theorem kvm_is_required w argv :
  X86 ∈ supported_isas w →
  MESI_TWO_LEVEL ∈ supported_protocols w →
  kvm_available w = false →
  trace (script argv) w = []
  ∧ result (script argv) w = inl (Exception kvm_unavailable)
  ∧ exit_status (result (script argv) w) ≠ 0.
Proof.
  intros Hi Hc Hk.
  assert (requires (Some X86) (Some MESI_TWO_LEVEL) (Some true) w
          = ([], inl (Exception kvm_unavailable))) as Hr.
  { unfold requires, mbind, M_bind, ask, unless, mret, M_ret, raise. cbn.
    by rewrite (bool_decide_eq_true_2 _ Hi), (bool_decide_eq_true_2 _ Hc), Hk. }
  unfold script, script_with, trace, result.
  cbv beta iota zeta delta [mbind M_bind]. rewrite Hr. by cbn.
Qed.

Lemma kvm_is_required_witness :
  trace (script (invocation "bfs" "8" "t")) x86_build_without_kvm = []
  ∧ result (script (invocation "bfs" "8" "t")) x86_build_without_kvm
    = inl (Exception kvm_unavailable)
  ∧ exit_status (result (script (invocation "bfs" "8" "t")) x86_build_without_kvm) ≠ 0.
Proof.
  apply (kvm_is_required x86_build_without_kvm (invocation "bfs" "8" "t")).
  - apply (bool_decide_unpack _). vm_compute. exact I.
  - apply (bool_decide_unpack _). vm_compute. exact I.
  - reflexivity.
Defined.


Lemma requires_with_roi_ticks w ticks :
  requires (Some X86) (Some MESI_TWO_LEVEL) (Some true) (with_roi_ticks w ticks)
  = requires (Some X86) (Some MESI_TWO_LEVEL) (Some true) w.
Proof.
  cbv beta iota zeta delta [requires mbind M_bind ask unless mret M_ret raise].
  cbn [with_roi_ticks supported_isas supported_protocols kvm_available].
  destruct (bool_decide (X86 ∈ supported_isas w)); [|done].
  destruct (bool_decide (MESI_TWO_LEVEL ∈ supported_protocols w)); [|done].
  by destruct (kvm_available w).
Qed.

(** X8: of the list of ROI ticks only the first element matters: two
    worlds that differ in the rest of the list give the same run, event
    for event, and the same end. *)
Theorem only_first_roi_tick_reported w argv t0 rest rest' :
  script argv (with_roi_ticks w (t0 :: rest))
  = script argv (with_roi_ticks w (t0 :: rest')).
Proof.
  destruct (build_ok w) eqn:Hb.
  - destruct (argparse.parse_args parser argv) as [e|args] eqn:Hp.
    + unfold script. by rewrite !(script_with_rejected [] argv _ e) by done.
    + unfold_script. rewrite !requires_ok, Hp by done. reflexivity.
  - unfold script, script_with. cbv beta iota zeta delta [mbind M_bind].
    destruct (requires_unmet w Hb) as (u & Hu & _).
    by rewrite !requires_with_roi_ticks, Hu.
Qed.

(** ** The simulated machine *)

Lemma constructions_cons e t :
  constructions (e :: t)
  = (if is_construction e then [e] else []) ++ constructions t.
Proof. unfold constructions. cbn. by destruct (is_construction e). Qed.

Lemma constructions_app t1 t2 :
  constructions (t1 ++ t2) = constructions t1 ++ constructions t2.
Proof. apply List.filter_app. Qed.

(** X9: whatever the accepted command line is, the machine handed to the
    simulator is the one the header of the script describes: an X86 board
    at 3GHz with two cores, all of them KVM cores, the MESI two-level
    hierarchy and 3GB of memory, booting the 5.4.0-105 kernel from the
    Ubuntu 24.04 disk image with the guest command as readfile.  One board
    is simulated, and nothing is constructed once the run has begun. *)
Theorem simulated_machine_is_fixed w argv args :
  build_ok w = true →
  argparse.parse_args parser argv = inr args →
  let t := trace (script argv) w in
  simulated_boards t =
    [ {| clk_freq := "3GHz";
         processor := {| cpu_type := KVM; num_cores := 2; isa := X86 |};
         memory := {| mem_size := "3GB" |};
         cache_hierarchy :=
           {| l1d_size := "32kB"; l1d_assoc := 8;
              l1i_size := "32kB"; l1i_assoc := 8;
              l2_size := "256kB"; l2_assoc := 16; num_l2_banks := 2 |};
         workload :=
           Some {| kernel := {| resource_id := "x86-linux-kernel-5.4.0-105-generic";
                                resource_version := "1.0.0" |};
                   disk_image :=
                     {| local_path := "/home/bees/gem5-resources/src/x86-ubuntu-24.04-gapbs/disk-image-ubuntu-24-04/x86-ubuntu-24-04" |};
                   readfile_contents := command args;
                   kernel_args := ["earlyprintk=ttyS0"; "console=ttyS0";
                                   "root=/dev/sda2"; "no_systemd=false"] |} |} ]
  ∧ length (constructions (before_run t)) = 7%nat
  ∧ constructions (from_run t) = [].
Proof.
  intros Hb Hp t. subst t. run_script Hb Hp.
  all: cbn [before_run from_run].
  all: rewrite !simulated_boards_cons, !simulated_boards_app,
         !run_loop_unhooked_boards.
  all: rewrite !constructions_app, !run_loop_unhooked_constructions.
  all: repeat split; reflexivity.
Qed.

Lemma simulated_machine_is_fixed_witness :
  let t := trace (script (invocation "tc" "USA-road-d.NY.gr" "f"))
             (x86_build [WORKBEGIN; WORKEND; EXIT] [1000]) in
  simulated_boards t =
    [ {| clk_freq := "3GHz";
         processor := {| cpu_type := KVM; num_cores := 2; isa := X86 |};
         memory := {| mem_size := "3GB" |};
         cache_hierarchy :=
           {| l1d_size := "32kB"; l1d_assoc := 8;
              l1i_size := "32kB"; l1i_assoc := 8;
              l2_size := "256kB"; l2_assoc := 16; num_l2_banks := 2 |};
         workload :=
           Some {| kernel := {| resource_id := "x86-linux-kernel-5.4.0-105-generic";
                                resource_version := "1.0.0" |};
                   disk_image :=
                     {| local_path := "/home/bees/gem5-resources/src/x86-ubuntu-24.04-gapbs/disk-image-ubuntu-24-04/x86-ubuntu-24-04" |};
                   readfile_contents :=
                     command (<["synthetic" := "f"]>
                                (<["size" := "USA-road-d.NY.gr"]>
                                   (<["benchmark" := "tc"]> ∅)));
                   kernel_args := ["earlyprintk=ttyS0"; "console=ttyS0";
                                   "root=/dev/sda2"; "no_systemd=false"] |} |} ]
  ∧ length (constructions (before_run t)) = 7%nat
  ∧ constructions (from_run t) = [].
Proof.
  apply (simulated_machine_is_fixed
           (x86_build [WORKBEGIN; WORKEND; EXIT] [1000])
           (invocation "tc" "USA-road-d.NY.gr" "f")
           (<["synthetic" := "f"]>
              (<["size" := "USA-road-d.NY.gr"]> (<["benchmark" := "tc"]> ∅))));
    vm_compute; reflexivity.
Defined.

(** ** The order of the options *)

Lemma last_value_Some_elem o argv v :
  last_value o argv = Some v → (o, v) ∈ argv.
Proof.
  induction argv as [|[o' v'] argv IH]; [done|]. cbn [last_value fst snd].
  destruct (last_value o argv) as [v0|].
  - intros [= ->]. right. by apply IH.
  - destruct (String.eqb_spec o' o) as [->|]; [|done]. intros [= ->]. by left.
Qed.

Lemma last_value_NoDup o argv v :
  NoDup argv.*1 → (o, v) ∈ argv → last_value o argv = Some v.
Proof.
  induction argv as [|[o' v'] argv IH]; [by rewrite elem_of_nil|].
  cbn [fmap list_fmap fst]. rewrite NoDup_cons, elem_of_cons.
  intros [Hnotin Hnd] [[= -> ->]|Hin]; cbn [last_value fst snd].
  - destruct (last_value o' argv) as [v0|] eqn:E.
    + exfalso. apply Hnotin, elem_of_fst. exists v0. by apply last_value_Some_elem.
    + by rewrite String.eqb_refl.
  - by rewrite (IH Hnd Hin).
Qed.

Lemma accepted_spelled_in_full argv args :
  argparse.parse_args parser argv = inr args → spelled_in_full argv.
Proof.
  intros Hp ov Hin. unfold argparse.parse_args in Hp.
  destruct (argparse.consume_all parser argparse.initial argv) as [e|st] eqn:E;
    [done|].
  destruct (argparse.missing parser (argparse.seen_actions st)); [|done].
  destruct (argparse.extras st) eqn:Ex; [|done].
  destruct (consume_all_valid parser argparse.initial argv) as (st' & E' & _ & He).
  { intros ov' a' Hin' Hf. by apply (consume_all_inr_valid _ _ _ _ _ _ E Hin'). }
  rewrite E in E'. injection E' as <-. rewrite Ex in He. cbn in He.
  destruct (decide (ov.1 ∈ option_strings)) as [|Hn]; [done|].
  apply find_action_None in Hn.
  assert (In ov (unknown parser argv)) as Hu.
  { apply List.filter_In. split; [by apply list_elem_of_In|]. by rewrite Hn. }
  rewrite <- He in Hu. destruct Hu.
Qed.

Lemma accepted_values argv args :
  argparse.parse_args parser argv = inr args →
  ∃ b s y,
    args = <["synthetic" := y]> (<["size" := s]> (<["benchmark" := b]> ∅))
    ∧ last_value "--benchmark" argv = Some b
    ∧ last_value "--size" argv = Some s
    ∧ last_value "--synthetic" argv = Some y.
Proof.
  intros Hp. destruct (accepted_namespace _ _ Hp) as (b & s & y & _ & _ & Hn).
  assert (benchmark_argument ∈ parser ∧ size_argument ∈ parser
          ∧ synthetic_argument ∈ parser) as (I1 & I2 & I3).
  { unfold parser. rewrite !elem_of_cons. repeat split; auto. }
  pose proof (accepted_last_value argv args _ I1 Hp) as L1.
  pose proof (accepted_last_value argv args _ I2 Hp) as L2.
  pose proof (accepted_last_value argv args _ I3 Hp) as L3.
  cbn in L1, L2, L3. rewrite Hn in L1, L2, L3.
  rewrite lookup_insert_ne, lookup_insert_ne, lookup_insert_eq in L1 by done.
  rewrite lookup_insert_ne, lookup_insert_eq in L2 by done.
  rewrite lookup_insert_eq in L3.
  by exists b, s, y.
Qed.

(** X10: the order of the options does not matter: a command line that is
    accepted and gives no option twice can be rearranged at will; it is
    parsed to the same namespace and the script runs in the same way. *)
Theorem option_order_is_irrelevant w argv1 argv2 args :
  argparse.parse_args parser argv1 = inr args →
  NoDup argv1.*1 →
  argv1 ≡ₚ argv2 →
  argparse.parse_args parser argv2 = inr args
  ∧ script argv2 w = script argv1 w.
Proof.
  intros Hp Hnd Hperm.
  assert (argparse.parse_args parser argv2 = inr args) as Hp2.
  { pose proof (accepted_spelled_in_full _ _ Hp) as Hfull.
    assert (spelled_in_full argv2) as Hfull2.
    { intros ov Hin. apply Hfull. by rewrite Hperm. }
    destruct (proj1 (parse_args_accepted_iff argv1 Hfull) (ex_intro _ args Hp))
      as (Hb & Hy & Pb & Ps & Py).
    destruct (proj2 (parse_args_accepted_iff argv2 Hfull2)) as [args2 Hp2].
    { rewrite <- Hperm. repeat split; try done.
      - intros v. rewrite <- Hperm. apply Hb.
      - intros v. rewrite <- Hperm. apply Hy. }
    rewrite Hp2. f_equal.
    destruct (accepted_values _ _ Hp) as (b & s & y & -> & Lb & Ls & Ly).
    destruct (accepted_values _ _ Hp2) as (b' & s' & y' & -> & Lb' & Ls' & Ly').
    apply last_value_Some_elem in Lb', Ls', Ly'.
    rewrite <- Hperm in Lb', Ls', Ly'.
    apply (last_value_NoDup _ _ _ Hnd) in Lb', Ls', Ly'.
    by simplify_eq. }
  split; [done|].
  unfold script, script_with, parse_args. by rewrite Hp, Hp2.
Qed.

Lemma option_order_is_irrelevant_witness :
  let w := x86_build [WORKBEGIN; WORKEND; EXIT] [1000] in
  argparse.parse_args parser
    [("--synthetic", "t"); ("--benchmark", "bfs"); ("--size", "8")]
  = inr (<["synthetic" := "t"]> (<["size" := "8"]> (<["benchmark" := "bfs"]> ∅)))
  ∧ script [("--synthetic", "t"); ("--benchmark", "bfs"); ("--size", "8")] w
    = script (invocation "bfs" "8" "t") w.
Proof.
  apply (option_order_is_irrelevant
           (x86_build [WORKBEGIN; WORKEND; EXIT] [1000])
           (invocation "bfs" "8" "t")
           [("--synthetic", "t"); ("--benchmark", "bfs"); ("--size", "8")]).
  - vm_compute. reflexivity.
  - apply (bool_decide_unpack _). vm_compute. exact I.
  - unfold invocation.
    etrans; [apply perm_skip, perm_swap|apply perm_swap].
Defined.

(** * The script on the strings of the command line *)

(** ** The command line as strings *)

Lemma startswith_dash v :
  Py.startswith v "-" = false →
  v = "" ∨ ∃ c r, v = String c r ∧ Ascii.eqb c "-" = false.
Proof.
  destruct v as [|c r]; [by left|]. intros H. right. exists c, r. split; [done|].
  unfold Py.startswith in H. cbn in H.
  destruct (Ascii.ascii_dec "-" c) as [<-|Hne]; [by destruct r|].
  apply Ascii.eqb_neq. congruence.
Qed.

Lemma parse_optional_plain p v :
  Py.startswith v "-" = false → argv.parse_optional p v = inr None.
Proof.
  intros H. destruct (startswith_dash v H) as [->|(c & r & -> & Hc)]; [done|].
  cbn. by rewrite Hc.
Qed.

Lemma plain_not_dashdash v :
  Py.startswith v "-" = false → String.eqb v "--" = false.
Proof.
  intros H. destruct (startswith_dash v H) as [->|(c & r & -> & Hc)]; [done|].
  cbn. by rewrite Hc.
Qed.

Lemma parse_optional_option a :
  a ∈ parser →
  argv.parse_optional parser (argparse.option_string a)
  = inr (Some (Some (argv.store_action a), argparse.option_string a, None))
  ∧ String.eqb (argparse.option_string a) "--" = false.
Proof. intros H. by destruct (parser_elem _ H) as [->|[->| ->]]. Qed.

Lemma plain_cons ov argv :
  plain (ov :: argv) ↔
  (ov.1 ∈ option_strings ∧ Py.startswith ov.2 "-" = false) ∧ plain argv.
Proof.
  unfold plain. split.
  - intros H. split; [apply H; by left|]. intros ov' Hin. apply H. by right.
  - intros [H1 H2] ov' [->|Hin]%elem_of_cons; auto.
Qed.

Lemma plain_app argv1 argv2 : plain (argv1 ++ argv2) ↔ plain argv1 ∧ plain argv2.
Proof.
  unfold plain. split.
  - intros H. split; intros ov Hin; apply H, elem_of_app; auto.
  - intros [H1 H2] ov [Hin|Hin]%elem_of_app; auto.
Qed.

Lemma plain_spelled_in_full argv : plain argv → spelled_in_full argv.
Proof. intros H ov Hin. by apply H. Qed.

(** The strings of a plain command line are classified as they are
    written: an option, its value, an option, its value. *)
Lemma classify_plain argv :
  plain argv →
  ∃ cs, argv.classify parser (tokens_of argv) = inr cs
        ∧ zip (tokens_of argv) cs = items_of argv.
Proof.
  induction argv as [|[o v] argv IH]; intros Hp.
  - by exists [].
  - apply plain_cons in Hp as [[Ho Hv] Hp]. cbn [fst snd] in Ho, Hv.
    destruct (IH Hp) as (cs & Hc & Hz).
    destruct (find_action_is_Some parser o Ho) as (a & Ha & Hin & <-).
    destruct (parse_optional_option a Hin) as [Hpo Hdd].
    exists (argv.O (Some (argv.store_action a), argparse.option_string a, None)
            :: argv.A :: cs).
    unfold tokens_of, items_of in *. cbn [mbind list_bind fst snd app].
    change (argv.classify parser (argparse.option_string a :: v :: (argv ≫= λ ov, [ov.1; ov.2]))
            = inr (argv.O (Some (argv.store_action a), argparse.option_string a, None)
                   :: argv.A :: cs)
            ∧ zip (argparse.option_string a :: v :: (argv ≫= λ ov, [ov.1; ov.2]))
                (argv.O (Some (argv.store_action a), argparse.option_string a, None)
                 :: argv.A :: cs)
              = match argparse.find_action parser (argparse.option_string a) with
                | Some a0 =>
                    [(argparse.option_string a,
                      argv.O (Some (argv.store_action a0), argparse.option_string a, None));
                     (v, argv.A)]
                | None => []
                end ++ (argv ≫= λ ov,
                          match argparse.find_action parser ov.1 with
                          | Some a0 => [(ov.1, argv.O (Some (argv.store_action a0), ov.1, None));
                                        (ov.2, argv.A)]
                          | None => []
                          end)).
    rewrite Ha. split.
    + cbn [argv.classify]. rewrite Hdd, Hpo, (plain_not_dashdash v Hv),
        (parse_optional_plain parser v Hv), Hc. done.
    + cbn [zip zip_with app]. by rewrite Hz.
Qed.

Lemma items_of_cons o v argv a :
  argparse.find_action parser o = Some a →
  items_of ((o, v) :: argv)
  = (o, argv.O (Some (argv.store_action a), o, None)) :: (v, argv.A) :: items_of argv.
Proof. intros H. unfold items_of. cbn [mbind list_bind fst snd]. by rewrite H. Qed.

(** On a plain command line the parser on strings does what the parser on
    occurrences does. *)
Lemma consume_plain argv st st' :
  plain argv → same_state st st' →
  match argv.consume parser st (items_of argv),
        argparse.consume_all parser st' argv with
  | inl (argv.error e), inl e' => e = e'
  | inr s, inr s' => same_state s s'
  | _, _ => False
  end.
Proof.
  revert st st'. induction argv as [|[o v] argv IH]; intros st st' Hp Hs; [done|].
  apply plain_cons in Hp as [[Ho Hv] Hp]. cbn [fst snd] in Ho, Hv.
  destruct (find_action_is_Some parser o Ho) as (a & Ha & _ & _).
  rewrite (items_of_cons o v argv a Ha).
  cbn [argv.consume argparse.consume_all].
  unfold argv.take_store, argparse.consume_optional. cbn [fst snd andb].
  rewrite Ha. destruct (argparse.check_value a v); [|done].
  apply IH; [done|]. destruct Hs as (Hn & Hse & He & He').
  repeat split; cbn; [|congruence|done..].
  by rewrite Hn, fmap_insert.
Qed.

(** So the two parsers agree on the plain command lines. *)
Lemma parse_args_plain argv :
  plain argv →
  argv.parse_args parser (tokens_of argv)
  = match argparse.parse_args parser argv with
    | inl e => argv.usage e
    | inr ns => argv.parsed (argv.str <$> ns)
    end.
Proof.
  intros Hp. unfold argv.parse_args, argparse.parse_args.
  destruct (classify_plain argv Hp) as (cs & -> & ->).
  pose proof (consume_plain argv argv.initial argparse.initial Hp) as H.
  destruct (argv.consume parser argv.initial (items_of argv)) as [[e|]|s];
    destruct (argparse.consume_all parser argparse.initial argv) as [e'|s'];
    try (by exfalso; apply H; repeat split; try done; by rewrite fmap_empty).
  - rewrite (H ltac:(repeat split; try done; by rewrite fmap_empty)). done.
  - destruct H as (Hn & Hse & He & He');
      [repeat split; try done; by rewrite fmap_empty|].
    rewrite Hse, He, He', Hn.
    by destruct (argparse.missing parser (argparse.seen_actions s')).
Qed.

Lemma render_str (ns : gmap string string) : argv.render <$> (argv.str <$> ns) = ns.
Proof.
  rewrite <- map_fmap_compose. apply map_eq. intros k.
  rewrite lookup_fmap. by destruct (ns !! k).
Qed.

Lemma parse_argv_plain argv :
  plain argv → parse_argv (tokens_of argv) = parse_args argv.
Proof.
  intros Hp. unfold parse_argv, parse_args. rewrite (parse_args_plain argv Hp).
  destruct (argparse.parse_args parser argv) as [e|ns]; [done|].
  by rewrite render_str.
Qed.

(** The two forms of the script agree on the plain command lines. *)
Lemma main_plain argv : plain argv → main (tokens_of argv) = script argv.
Proof.
  intros Hp. unfold main, script, script_with.
  by rewrite (parse_argv_plain argv Hp).
Qed.

(** The command lines of the three options in full are not all the parser
    takes: an option can be shortened, the help ends the script with
    status 0 wherever it is met, and a string that starts with a dash is
    not taken as a value. *)
Example other_command_lines :
  let w := x86_build [WORKBEGIN; WORKEND; EXIT] [1000] in
  result (main ["--bench"; "bfs"; "--size"; "8"; "--synthetic"; "t"]) w = inr tt
  ∧ result (main ["--benchmark"; "bfs"; "--size"; "8"; "--synthetic"; "t";
                  "--help"; "x"]) w
    = inl (SystemExit 0 None)
  ∧ result (main ["--help"; "x"; "--benchmark"; "sssp"]) w
    = inl (SystemExit 0 None)
  ∧ result (main ["--benchmark"; "bfs"; "--size"; "-x"]) w
    = inl (SystemExit 2 (Some (argparse.expected_one_argument "--size")))
  ∧ result (main ["--s"; "8"]) w
    = inl (SystemExit 2 (Some (argparse.ambiguous_option "--s"
                                 ["--size"; "--synthetic"]))).
Proof. repeat split; by vm_compute. Qed.

(** ** What the parser on strings lets through *)

Lemma option_string_actions_store p o a :
  (o, argv.store_action a) ∈ argv.option_string_actions p →
  a ∈ p ∧ argparse.option_string a = o.
Proof.
  unfold argv.option_string_actions. rewrite elem_of_app, !elem_of_cons, elem_of_nil.
  intros [[?|[?|[]]]|H]; [done..|].
  apply list_elem_of_fmap in H as (a' & [= -> ->] & Ha). done.
Qed.

Lemma get_action_store p s a :
  argv.get_action p s = Some (argv.store_action a) → a ∈ p.
Proof.
  unfold argv.get_action.
  destruct (List.find _ _) as [[o act]|] eqn:E; [|done].
  intros [= ->]. apply List.find_some in E as [E _].
  apply list_elem_of_In in E. by apply option_string_actions_store in E as [? _].
Qed.

Lemma get_option_tuples_store p tok a os e :
  (Some (argv.store_action a), os, e) ∈ argv.get_option_tuples p tok → a ∈ p.
Proof.
  unfold argv.get_option_tuples.
  destruct tok as [|c0 [|c1 rest]]; [by intros ?%elem_of_nil..|].
  destruct (Ascii.eqb c1 "-").
  - destruct (argv.split_eq _) as [[pre ex]|];
      intros ([o act] & Hin & H)%list_elem_of_omap; cbn [fst snd] in H;
      destruct (String.prefix _ _); try done; injection H as -> -> _;
      by apply option_string_actions_store in Hin as [? _].
  - intros ([o act] & Hin & H)%list_elem_of_omap; cbn [fst snd] in H.
    destruct (String.eqb _ _); [|destruct (String.prefix _ _); [|done]];
      injection H as -> -> _;
      by apply option_string_actions_store in Hin as [? _].
Qed.

Lemma parse_optional_store p tok a os e :
  argv.parse_optional p tok = inr (Some (Some (argv.store_action a), os, e)) →
  a ∈ p.
Proof.
  unfold argv.parse_optional. destruct tok as [|c0 rest]; [done|].
  destruct (negb _); [done|].
  destruct (argv.get_action p (String c0 rest)) as [act|] eqn:E.
  { intros [= -> _ _]. by apply get_action_store in E. }
  destruct rest as [|c1 rest]; [done|].
  destruct (argv.split_eq _) as [[o ex]|].
  - destruct (argv.get_action p o) as [act|] eqn:E'.
    { intros [= -> _ _]. by apply get_action_store in E'. }
    destruct (argv.get_option_tuples _ _) as [|t [|t' ts]] eqn:Et; [|intros [= ->]|done].
    + by repeat case_match.
    + apply (get_option_tuples_store p (String c0 (String c1 rest)) a os e).
      rewrite Et. by left.
  - destruct (argv.get_option_tuples _ _) as [|t [|t' ts]] eqn:Et; [|intros [= ->]|done].
    + by repeat case_match.
    + apply (get_option_tuples_store p (String c0 (String c1 rest)) a os e).
      rewrite Et. by left.
Qed.

Lemma parse_optional_inl p tok e :
  argv.parse_optional p tok = inl e → ∃ s ms, e = argparse.ambiguous_option s ms.
Proof.
  unfold argv.parse_optional. intros H.
  repeat case_match; try done; injection H as <-; eauto.
Qed.

Lemma classify_inl p toks e :
  argv.classify p toks = inl e → ∃ s ms, e = argparse.ambiguous_option s ms.
Proof.
  induction toks as [|tok toks IH]; cbn [argv.classify]; [done|].
  destruct (String.eqb tok "--"); [done|].
  destruct (argv.parse_optional p tok) as [e'|c] eqn:E.
  - intros [= <-]. by apply parse_optional_inl in E.
  - destruct (argv.classify p toks) as [e'|cs]; [|done].
    intros [= <-]. by apply IH.
Qed.

Lemma from_parser_cons p x items :
  from_parser p (x :: items) ↔
  (∀ a os e, x.2 = argv.O (Some (argv.store_action a), os, e) → a ∈ p)
  ∧ from_parser p items.
Proof.
  unfold from_parser. split.
  - intros H. split.
    + intros a os e Hx. apply (H x.1 a os e). apply elem_of_cons. left.
      destruct x as [tok c]. cbn in *. by rewrite Hx.
    + intros tok a os e Hin. apply (H tok a os e). apply elem_of_cons. by right.
  - intros [H1 H2] tok a os e [<-|Hin]%elem_of_cons; [by apply (H1 a os e)|].
    by apply (H2 tok a os e).
Qed.

Lemma from_parser_arguments p (toks : list string) :
  from_parser p (zip toks ((fun _ => argv.A) <$> toks)).
Proof.
  induction toks as [|tok toks IH]; cbn.
  - intros ???? ?%elem_of_nil. done.
  - apply from_parser_cons. split; [done|]. apply IH.
Qed.

(** Classification finds no store action that is not the parser's. *)
Lemma classify_from_parser p toks cs :
  argv.classify p toks = inr cs → from_parser p (zip toks cs).
Proof.
  revert cs. induction toks as [|tok toks IH]; intros cs; cbn [argv.classify].
  - intros [= <-]. intros ???? ?%elem_of_nil. done.
  - destruct (String.eqb tok "--").
    { intros [= <-]. cbn. apply from_parser_cons. split; [done|].
      apply from_parser_arguments. }
    destruct (argv.parse_optional p tok) as [e'|c] eqn:E; [done|].
    destruct (argv.classify p toks) as [e'|cs']; [done|].
    intros [= <-]. cbn. apply from_parser_cons. split; [|by apply IH].
    cbn. intros a os e Hc. destruct c as [t|]; [|done].
    injection Hc as ->. by apply parse_optional_store in E.
Qed.

Lemma take_store_inv p a arg explicit st st' :
  a ∈ p →
  argv.take_store a arg explicit st = inr st' →
  argv_checked p st ∧ argv_stored p st →
  argv_checked p st' ∧ argv_stored p st'.
Proof.
  intros Ha H [Hc Hs].
  assert (∃ v, st' = {| argv.namespace := <[argparse.dest a := v]> (argv.namespace st);
                        argv.seen_actions := argv.seen_actions st ++ [argparse.option_string a];
                        argv.extras := argv.extras st |}
               ∧ (v = argv.empty_list
                  ∨ ∃ s, v = argv.str s ∧ argparse.check_value a s = true))
    as (v & -> & Hv).
  { unfold argv.take_store in H. destruct (explicit && String.eqb arg "--").
    - injection H as <-. eauto.
    - destruct (argparse.check_value a arg) eqn:E; [|done].
      injection H as <-. eauto 10. }
  split.
  - intros d v'. cbn. destruct (decide (argparse.dest a = d)) as [<-|Hne].
    + rewrite lookup_insert_eq. intros [= <-].
      destruct Hv as [->|(s & -> & Hs')]; [by left|]. right. eauto 10.
    + rewrite lookup_insert_ne by done. apply Hc.
  - intros o. cbn. rewrite elem_of_app, list_elem_of_singleton. intros [Ho| ->].
    + destruct (Hs o Ho) as (a' & Ha' & <- & Hl). exists a'.
      split; [done|]. split; [done|].
      apply lookup_insert_is_Some. destruct (decide (argparse.dest a = argparse.dest a'));
        [by left|by right].
    + exists a. split; [done|]. split; [done|].
      rewrite lookup_insert_eq. eauto.
Qed.

Lemma take_store_inl a arg explicit st s :
  argv.take_store a arg explicit st = inl s →
  s = argv.error (argparse.invalid_choice (argparse.option_string a) arg
                    (default [] (argparse.choices a)))
  ∧ argparse.check_value a arg = false.
Proof.
  unfold argv.take_store. destruct (explicit && String.eqb arg "--"); [done|].
  destruct (argparse.check_value a arg); [done|]. by intros [= <-].
Qed.

Lemma cluster_not_invalid_choice p e b o v cs :
  argv.cluster p e b ≠ argv.error (argparse.invalid_choice o v cs).
Proof.
  induction e as [|c r IH]; cbn [argv.cluster]; [done|].
  destruct (argv.get_action _ _) as [[|a]|]; [| |done].
  - by destruct r.
  - destruct r; [by destruct b|done].
Qed.

(** Consuming the command line keeps the namespace checked and the
    options met stored. *)
Lemma consume_inv p n :
  ∀ items st st',
    (length items ≤ n)%nat →
    from_parser p items →
    argv.consume p st items = inr st' →
    argv_checked p st ∧ argv_stored p st →
    argv_checked p st' ∧ argv_stored p st'.
Proof.
  induction n as [|n IH]; intros items st st' Hn Hf H Hi.
  { destruct items; [|cbn in Hn; lia]. by injection H as <-. }
  destruct items as [|[tok c] rest]; [by injection H as <-|].
  cbn [length] in Hn. apply from_parser_cons in Hf as [Hx Hf]. cbn [snd] in Hx.
  assert (argv_checked p (argv.skip st tok) ∧ argv_stored p (argv.skip st tok)) as Hskip
    by done.
  destruct c as [| |[[[[|a]|] os] [e|]]]; cbn [argv.consume] in H.
  - apply (IH rest _ _ ltac:(lia) Hf H Hskip).
  - apply (IH rest _ _ ltac:(lia) Hf H Hskip).
  - by repeat case_match.
  - done.
  - destruct (argv.take_store a e true st) as [s|st1] eqn:E; [done|].
    apply (IH rest st1 _ ltac:(lia) Hf H).
    apply (take_store_inv p a e true st st1); [by eapply Hx|done..].
  - destruct rest as [|[v [| |t]] rest']; [done| |done..].
    destruct (argv.take_store a v false st) as [s|st1] eqn:E; [done|].
    apply from_parser_cons in Hf as [_ Hf]. cbn [length] in Hn.
    apply (IH rest' st1 _ ltac:(lia) Hf H).
    apply (take_store_inv p a v false st st1); [by eapply Hx|done..].
  - apply (IH rest _ _ ltac:(lia) Hf H Hskip).
  - apply (IH rest _ _ ltac:(lia) Hf H Hskip).
Qed.

(** An invalid choice is reported for an argument of the parser whose
    check the value fails, and for nothing else. *)
Lemma consume_invalid_choice p n :
  ∀ items st o v cs,
    (length items ≤ n)%nat →
    from_parser p items →
    argv.consume p st items = inl (argv.error (argparse.invalid_choice o v cs)) →
    ∃ a, a ∈ p ∧ argparse.option_string a = o ∧ argparse.check_value a v = false.
Proof.
  induction n as [|n IH]; intros items st o v cs Hn Hf H.
  { destruct items; [done|cbn in Hn; lia]. }
  destruct items as [|[tok c] rest]; [done|].
  cbn [length] in Hn. apply from_parser_cons in Hf as [Hx Hf]. cbn [snd] in Hx.
  destruct c as [| |[[[[|a]|] os] [e|]]]; cbn [argv.consume] in H.
  - apply (IH rest _ _ _ _ ltac:(lia) Hf H).
  - apply (IH rest _ _ _ _ ltac:(lia) Hf H).
  - destruct os as [|c0 [|c1 os']], e as [|ce e']; try done.
    destruct (Ascii.eqb c1 "-"); [done|].
    destruct (cluster_not_invalid_choice p (String ce e') (argv.next_is_A rest) o v cs).
    congruence.
  - done.
  - destruct (argv.take_store a e true st) as [s|st1] eqn:E.
    + apply take_store_inl in E as [-> Hv]. injection H as <- <- _.
      exists a. split; [by eapply Hx|done].
    + apply (IH rest st1 _ _ _ ltac:(lia) Hf H).
  - destruct rest as [|[v' [| |t]] rest']; [done| |done..].
    destruct (argv.take_store a v' false st) as [s|st1] eqn:E.
    + apply take_store_inl in E as [-> Hv]. injection H as <- <- _.
      exists a. split; [by eapply Hx|done].
    + apply from_parser_cons in Hf as [_ Hf]. cbn [length] in Hn.
      apply (IH rest' st1 _ _ _ ltac:(lia) Hf H).
  - apply (IH rest _ _ _ _ ltac:(lia) Hf H).
  - apply (IH rest _ _ _ _ ltac:(lia) Hf H).
Qed.

(** A namespace that [parse_args] returns is checked, and no required
    option was left out. *)
Lemma parse_args_parsed p toks ns :
  argv.parse_args p toks = argv.parsed ns →
  ∃ st, argv.namespace st = ns
        ∧ argparse.missing p (argv.seen_actions st) = []
        ∧ argv_checked p st ∧ argv_stored p st.
Proof.
  unfold argv.parse_args.
  destruct (argv.classify p toks) as [e|cs] eqn:Ec; [done|].
  destruct (argv.consume p argv.initial (zip toks cs)) as [[e|]|st] eqn:E; [done..|].
  destruct (argparse.missing p (argv.seen_actions st)) eqn:Em; [|done].
  destruct (argv.extras st); [|done]. intros [= <-].
  exists st. split; [done|]. split; [done|].
  apply (consume_inv p (length (zip toks cs)) (zip toks cs) argv.initial st);
    [lia|by apply classify_from_parser|done|].
  split.
  - intros d v. cbn. by rewrite lookup_empty.
  - intros o. cbn. by intros ?%elem_of_nil.
Qed.

Lemma parse_args_usage_invalid_choice p toks o v cs :
  argv.parse_args p toks = argv.usage (argparse.invalid_choice o v cs) →
  ∃ a, a ∈ p ∧ argparse.option_string a = o ∧ argparse.check_value a v = false.
Proof.
  unfold argv.parse_args.
  destruct (argv.classify p toks) as [e|cs'] eqn:Ec.
  { intros [= ->]. by destruct (classify_inl _ _ _ Ec) as (? & ? & ?). }
  destruct (argv.consume p argv.initial (zip toks cs')) as [[e|]|st] eqn:E; [|done|].
  - intros [= ->].
    apply (consume_invalid_choice p (length (zip toks cs')) (zip toks cs')
             argv.initial o v cs); [lia|by apply classify_from_parser|done].
  - destruct (argparse.missing p (argv.seen_actions st)); [|done].
    by destruct (argv.extras st).
Qed.

Lemma parser_option_string_inj a a' :
  a ∈ parser → a' ∈ parser →
  argparse.option_string a = argparse.option_string a' → a = a'.
Proof.
  intros H H'.
  by destruct (parser_elem _ H) as [->|[->| ->]],
              (parser_elem _ H') as [->|[->| ->]].
Qed.

(** Each attribute of a namespace the script's parser returns: set, and
    checked unless it is the empty list. *)
Lemma parsed_attribute toks ns a :
  argv.parse_args parser toks = argv.parsed ns →
  a ∈ parser →
  ∃ v, ns !! argparse.dest a = Some v
       ∧ (v = argv.empty_list
          ∨ ∃ s, v = argv.str s ∧ argparse.check_value a s = true).
Proof.
  intros H Ha. apply parse_args_parsed in H as (st & <- & Hm & Hc & Hs).
  assert (argparse.option_string a ∈ argv.seen_actions st) as Hseen.
  { destruct (decide (argparse.option_string a ∈ argv.seen_actions st)) as [|Hn];
      [done|].
    assert (argparse.option_string a
              ∈ argparse.missing parser (argv.seen_actions st)) as Hin.
    { apply elem_of_missing. exists a. repeat split; [done| |done].
      by destruct (parser_elem _ Ha) as [->|[->| ->]]. }
    rewrite Hm in Hin. by apply elem_of_nil in Hin. }
  destruct (Hs _ Hseen) as (a' & Ha' & Ho & [v Hv]).
  apply (parser_option_string_inj a' a Ha' Ha) in Ho as ->.
  exists v. split; [done|].
  destruct (Hc _ _ Hv) as [->|(a'' & s & Ha'' & Hd & -> & Hck)]; [by left|].
  apply (parser_dest_inj a'' a Ha'' Ha) in Hd as ->. right. eauto.
Qed.

(** X11: whatever the command line is, the script gets past
    [parse_args] only with a benchmark of the five, or the empty list that
    the explicit argument [--] leaves ([--benchmark=--]), with [t] or [f]
    (or that empty list) for the synthetic flag, and with some size. *)
Theorem only_checked_choices_get_through sys_argv ns :
  argv.parse_args parser sys_argv = argv.parsed ns →
  (∃ b, ns !! "benchmark" = Some b
        ∧ (b = argv.empty_list ∨ ∃ s, b = argv.str s ∧ s ∈ benchmark_choices))
  ∧ is_Some (ns !! "size")
  ∧ (∃ y, ns !! "synthetic" = Some y
          ∧ (y = argv.empty_list ∨ y = argv.str "t" ∨ y = argv.str "f")).
Proof.
  intros H. split; [|split].
  - destruct (parsed_attribute sys_argv ns benchmark_argument H) as (v & Hv & Hc).
    { unfold parser. rewrite !elem_of_cons. auto. }
    exists v. split; [done|]. destruct Hc as [->|(s & -> & Hs)]; [by left|].
    right. exists s. split; [done|]. by apply bool_decide_eq_true_1 in Hs.
  - destruct (parsed_attribute sys_argv ns size_argument H) as (v & Hv & _).
    { unfold parser. rewrite !elem_of_cons. auto. }
    by exists v.
  - destruct (parsed_attribute sys_argv ns synthetic_argument H) as (v & Hv & Hc).
    { unfold parser. rewrite !elem_of_cons. auto. }
    exists v. split; [done|]. destruct Hc as [->|(s & -> & Hs)]; [by left|].
    right. apply bool_decide_eq_true_1 in Hs.
    rewrite !elem_of_cons, elem_of_nil in Hs. destruct Hs as [->|[->|[]]]; auto.
Qed.

Lemma only_checked_choices_get_through_witness :
  let ns : gmap string argv.Value :=
    <["synthetic" := argv.str "f"]>
              (<["size" := argv.str "-3"]> (<["benchmark" := argv.str "pr"]> ∅)) in
  (∃ b, ns !! "benchmark" = Some b
        ∧ (b = argv.empty_list ∨ ∃ s, b = argv.str s ∧ s ∈ benchmark_choices))
  ∧ is_Some (ns !! "size")
  ∧ (∃ y, ns !! "synthetic" = Some y
          ∧ (y = argv.empty_list ∨ y = argv.str "t" ∨ y = argv.str "f")).
Proof.
  apply (only_checked_choices_get_through ["--bench=pr"; "--size=-3"; "--syn"; "f"]).
  vm_compute. reflexivity.
Defined.

(** ** Rejected command lines, as strings *)







(** ** The size is not checked, on strings *)

Lemma plain_invocation b s y :
  b ∈ benchmark_choices → y ∈ ["t"; "f"] → Py.startswith s "-" = false →
  plain (invocation b s y).
Proof.
  intros Hb Hy Hs ov. unfold invocation. rewrite !elem_of_cons, elem_of_nil.
  unfold benchmark_choices in Hb. rewrite !elem_of_cons, elem_of_nil in Hb.
  rewrite !elem_of_cons, elem_of_nil in Hy.
  intros [->|[->|[->|[]]]]; cbn [fst snd]; (split; [apply (bool_decide_unpack _); vm_compute; exact I|]).
  - by destruct Hb as [->|[->|[->|[->|[->|[]]]]]].
  - done.
  - by destruct Hy as [->|[->|[]]].
Qed.

Lemma parsed_invocation b s y :
  b ∈ benchmark_choices → y ∈ ["t"; "f"] → Py.startswith s "-" = false →
  argv.parse_args parser (tokens_of (invocation b s y))
  = argv.parsed (<["synthetic" := argv.str y]>
                   (<["size" := argv.str s]> (<["benchmark" := argv.str b]> ∅))).
Proof.
  intros Hb Hy Hs.
  rewrite (parse_args_plain _ (plain_invocation b s y Hb Hy Hs)),
    (invocation_accepted b s y Hb Hy).
  by rewrite !fmap_insert, fmap_empty.
Qed.

(** C7: the list [size_choices] is built ("1" to "16" and the road graph)
    but the [--size] argument has no [choices]: every string passes its
    check.  With an accepted benchmark and synthetic flag, every size that
    does not start with a dash is accepted and stored as it is; on a
    command line of the three options in full such a size can be exchanged
    for any other without changing a rejection; whatever the command line
    is, no invalid-choice error is about [--size]; a size that starts with
    a dash is taken when it is given as [--size=...]; and with an accepted
    benchmark and synthetic flag and a size that does not start with a
    dash the script never ends in [SystemExit]. *)
Theorem size_is_unchecked :
  size_choices = ["1"; "2"; "3"; "4"; "5"; "6"; "7"; "8"; "9"; "10"; "11";
                  "12"; "13"; "14"; "15"; "16"; "USA-road-d.NY.gr"]
  ∧ argparse.find_action parser "--size" = Some size_argument
  ∧ argparse.choices size_argument = None
  ∧ (∀ s, argparse.check_value size_argument s = true)
  ∧ (∀ b s y, b ∈ benchmark_choices → y ∈ ["t"; "f"] →
       Py.startswith s "-" = false →
       argv.parse_args parser (tokens_of (invocation b s y))
       = argv.parsed (<["synthetic" := argv.str y]>
                        (<["size" := argv.str s]>
                           (<["benchmark" := argv.str b]> ∅))))
  ∧ (∀ argv1 argv2 s s' e,
       plain (argv1 ++ ("--size", s) :: argv2) →
       Py.startswith s' "-" = false →
       argv.parse_args parser (tokens_of (argv1 ++ ("--size", s) :: argv2))
       = argv.usage e →
       argv.parse_args parser (tokens_of (argv1 ++ ("--size", s') :: argv2))
       = argv.usage e)
  ∧ (∀ sys_argv o v cs,
       argv.parse_args parser sys_argv
       = argv.usage (argparse.invalid_choice o v cs) →
       o ≠ "--size")
  ∧ argv.parse_args parser
      ["--benchmark"; "bfs"; "--size"; "not a size"; "--synthetic"; "t"]
    = argv.parsed (<["synthetic" := argv.str "t"]>
                     (<["size" := argv.str "not a size"]>
                        (<["benchmark" := argv.str "bfs"]> ∅)))
  ∧ argv.parse_args parser ["--benchmark"; "bfs"; "--size=-x"; "--synthetic"; "t"]
    = argv.parsed (<["synthetic" := argv.str "t"]>
                     (<["size" := argv.str "-x"]>
                        (<["benchmark" := argv.str "bfs"]> ∅)))
  ∧ (∀ w b s y n e, b ∈ benchmark_choices → y ∈ ["t"; "f"] →
       Py.startswith s "-" = false →
       result (main (tokens_of (invocation b s y))) w ≠ inl (SystemExit n e)).
Proof.
  split; [by vm_compute|]. split; [done|]. split; [done|]. split; [done|].
  split; [|split; [|split; [|split; [|split]]]].
  - apply parsed_invocation.
  - intros argv1 argv2 s s' e Hp Hs'.
    assert (plain (argv1 ++ ("--size", s') :: argv2)) as Hp'.
    { apply plain_app in Hp as [H1 H2]. apply plain_cons in H2 as [[Ho _] H2].
      apply plain_app. split; [done|]. by apply plain_cons. }
    rewrite (parse_args_plain _ Hp), (parse_args_plain _ Hp').
    destruct (argparse.parse_args parser (argv1 ++ ("--size", s) :: argv2))
      as [e'|ns] eqn:E; [|done].
    intros [= ->].
    by rewrite (parse_args_value_irrelevant parser argv1 argv2 "--size"
                  size_argument s s' e).
  - intros sys_argv o v cs H.
    apply parse_args_usage_invalid_choice in H as (a & Ha & <- & Hv).
    by destruct (parser_elem _ Ha) as [->|[->| ->]].
  - by vm_compute.
  - by vm_compute.
  - intros w b s y n e Hb Hy Hs.
    rewrite (main_plain _ (plain_invocation b s y Hb Hy Hs)).
    destruct (build_ok w) eqn:Hw.
    + rewrite (script_result _ w _ Hw (invocation_accepted b s y Hb Hy)).
      by destruct (roi_ticks w).
    + destruct (script_with_unmet w Hw) as (u & Hu & _).
      unfold script, result. by rewrite Hu.
Qed.

(** A size that starts with a dash, given as a string of its own, is not
    taken as the value of [--size]: the script ends with argparse's
    "expected one argument", status 2. *)
Lemma size_with_leading_dash_rejected :
  argv.parse_args parser ["--benchmark"; "bfs"; "--size"; "-x"; "--synthetic"; "t"]
  = argv.usage (argparse.expected_one_argument "--size")
  ∧ result (main ["--benchmark"; "bfs"; "--size"; "-x"; "--synthetic"; "t"])
      (x86_build [WORKBEGIN; WORKEND; EXIT] [1000])
    = inl (SystemExit 2 (Some (argparse.expected_one_argument "--size")))
  ∧ trace (main ["--benchmark"; "bfs"; "--size"; "-x"; "--synthetic"; "t"])
      (x86_build [WORKBEGIN; WORKEND; EXIT] [1000]) = [].
Proof. split; [|split]; by vm_compute. Qed.

(** ** Accepted and rejected command lines, on strings *)

(** X2: a command line of the three options in full, each followed by a
    value that does not start with a dash, is accepted exactly when every
    value given to [--benchmark] is one of the five benchmarks, every
    value given to [--synthetic] is [t] or [f], and each of the three
    options occurs at least once. *)
Theorem accepted_iff argv :
  plain argv →
  (∃ ns, argv.parse_args parser (tokens_of argv) = argv.parsed ns) ↔
  (∀ v, ("--benchmark", v) ∈ argv → v ∈ benchmark_choices)
  ∧ (∀ v, ("--synthetic", v) ∈ argv → v ∈ ["t"; "f"])
  ∧ "--benchmark" ∈ argv.*1 ∧ "--size" ∈ argv.*1 ∧ "--synthetic" ∈ argv.*1.
Proof.
  intros Hp.
  rewrite <- (parse_args_accepted_iff argv (plain_spelled_in_full argv Hp)).
  rewrite (parse_args_plain argv Hp).
  destruct (argparse.parse_args parser argv) as [e|args]; split.
  - by intros [ns ?].
  - by intros [args ?].
  - eauto.
  - eauto.
Qed.

Lemma accepted_iff_witness :
  let argv := [("--size", "4"); ("--synthetic", "t"); ("--benchmark", "pr");
               ("--size", "6")] in
  (∃ ns, argv.parse_args parser
           ["--size"; "4"; "--synthetic"; "t"; "--benchmark"; "pr"; "--size"; "6"]
         = argv.parsed ns) ↔
  (∀ v, ("--benchmark", v) ∈ argv → v ∈ benchmark_choices)
  ∧ (∀ v, ("--synthetic", v) ∈ argv → v ∈ ["t"; "f"])
  ∧ "--benchmark" ∈ argv.*1 ∧ "--size" ∈ argv.*1 ∧ "--synthetic" ∈ argv.*1.
Proof.
  apply (accepted_iff [("--size", "4"); ("--synthetic", "t"); ("--benchmark", "pr");
                       ("--size", "6")]).
  intros ov Hin. apply (bool_decide_unpack _).
  repeat (apply elem_of_cons in Hin as [->|Hin]; [vm_compute; exact I|]).
  by apply elem_of_nil in Hin.
Defined.

(** X1: a command line of the three options in full, each followed by a
    value that does not start with a dash, that leaves out one of the
    three options ends the script before anything is constructed, with a
    status that is not zero.  On a build that meets the requirements the
    end is argparse's [SystemExit(2)]: for an invalid choice if one of the
    values given fails its check, and otherwise for the missing required
    arguments, the option left out among them. *)
Theorem missing_option_rejected w argv o :
  plain argv →
  o ∈ option_strings →
  o ∉ argv.*1 →
  trace (main (tokens_of argv)) w = []
  ∧ exit_status (result (main (tokens_of argv)) w) ≠ 0
  ∧ (build_ok w = true →
     ∃ e, result (main (tokens_of argv)) w = inl (SystemExit 2 (Some e))
          ∧ ((∃ o' v cs, e = argparse.invalid_choice o' v cs)
             ∨ (∃ ms, e = argparse.required_missing ms ∧ o ∈ ms))).
Proof.
  intros Hp Ho Hout. rewrite (main_plain argv Hp).
  by apply script_missing_option; [apply plain_spelled_in_full|..].
Qed.

Lemma missing_option_rejected_witness :
  let w := x86_build [WORKBEGIN; WORKEND; EXIT] [1000] in
  let sys_argv := ["--benchmark"; "bfs"; "--synthetic"; "t"] in
  trace (main sys_argv) w = []
  ∧ exit_status (result (main sys_argv) w) ≠ 0
  ∧ (build_ok w = true →
     ∃ e, result (main sys_argv) w = inl (SystemExit 2 (Some e))
          ∧ ((∃ o' v cs, e = argparse.invalid_choice o' v cs)
             ∨ (∃ ms, e = argparse.required_missing ms ∧ "--size" ∈ ms))).
Proof.
  apply (missing_option_rejected
           (x86_build [WORKBEGIN; WORKEND; EXIT] [1000])
           [("--benchmark", "bfs"); ("--synthetic", "t")] "--size").
  - intros ov Hin. apply (bool_decide_unpack _).
    repeat (apply elem_of_cons in Hin as [->|Hin]; [vm_compute; exact I|]).
    by apply elem_of_nil in Hin.
  - apply (bool_decide_unpack _). vm_compute. exact I.
  - apply (bool_decide_unpack _). vm_compute. exact I.
Defined.


